(** * copy-bench: a shallow embedding of the benchmark harness (main.go)
    The harness seeds a key/value store with a deterministic dataset,
    scans a prefix of it from worker goroutines and times a full copy of
    the store.  The storage engine (bolt) is an external collaborator:
    it is modelled by the contract the harness relies on (buckets that
    keep their keys in ascending byte order, transactions that commit or
    roll back as a whole), with a script of fault decisions so that any
    engine call that can fail may fail. *)

From Stdlib Require Import ZArith Lia List String.
From Stdlib Require Import Init.Byte Strings.Byte.
From Stdlib Require QArith.QArith QArith.Qround.
From stdpp Require Import base option list numbers strings gmap.

Local Open Scope Z_scope.

(** ** Machine integers *)

(** Go's [int] and [int64] on a 64-bit target: two's complement. *)
Definition wrap64 (z : Z) : Z := (z + 2 ^ 63) mod 2 ^ 64 - 2 ^ 63.

(** The conversion [uint64(x)]. *)
Definition uint64 (z : Z) : Z := z mod 2 ^ 64.

(** [x / y] on int64: truncated division; a zero divisor panics. *)
Definition int64_div (x y : Z) : option Z :=
  if y =? 0 then None else Some (wrap64 (Z.quot x y)).

(** ** Bytes and keys *)

Definition byte_val (b : byte) : Z := Z.of_N (Byte.to_N b).

(** The conversion [byte(x)]: the low eight bits. *)
Definition to_byte (z : Z) : byte :=
  default x00 (Byte.of_N (Z.to_N (Z.land z 255))).

(** [make([]byte, n)] *)
Definition make_bytes (n : Z) : list byte := replicate (Z.to_nat n) x00.

(** [binary.BigEndian.PutUint64(b, v)]; [None] is the index-out-of-range
    panic of a slice shorter than eight bytes. *)
Definition PutUint64 (b : list byte) (v : Z) : option (list byte) :=
  if (length b <? 8)%nat then None
  else Some ([ to_byte (Z.shiftr v 56); to_byte (Z.shiftr v 48);
               to_byte (Z.shiftr v 40); to_byte (Z.shiftr v 32);
               to_byte (Z.shiftr v 24); to_byte (Z.shiftr v 16);
               to_byte (Z.shiftr v 8);  to_byte v ] ++ drop 8 b).

(** [bytes.Compare]: lexicographic on unsigned bytes, result -1, 0 or 1. *)
Fixpoint bytes_Compare (a b : list byte) : Z :=
  match a, b with
  | [], [] => 0
  | [], _ :: _ => -1
  | _ :: _, [] => 1
  | x :: a', y :: b' =>
      if byte_val x <? byte_val y then -1
      else if byte_val y <? byte_val x then 1
      else bytes_Compare a' b'
  end.

(** ** The big-endian reading of a key *)

(** Big-endian value of a byte string. *)
Definition be_value (l : list byte) : Z :=
  fold_left (fun acc b => acc * 256 + byte_val b) l 0.

(** Big-endian digits, most significant first. *)
Fixpoint be_digits (n : nat) (v : Z) : list byte :=
  match n with
  | O => []
  | S n' => be_digits n' (v / 256) ++ [to_byte v]
  end.

Definition cmp_sign (c : comparison) : Z :=
  match c with Lt => -1 | Eq => 0 | Gt => 1 end.

(** ** The store and the effects of the harness *)

(** A bucket: its records in ascending byte order of their keys (what a
    forward cursor yields). *)
Abbreviation bucket := (list (list byte * list byte)).

(** [Put]: insert in key order, replacing the value of a key already there. *)
Fixpoint bucket_put (k v : list byte) (b : bucket) : bucket :=
  match b with
  | [] => [(k, v)]
  | (k', v') :: r =>
      if bytes_Compare k k' =? -1 then (k, v) :: b
      else if bytes_Compare k k' =? 0 then (k, v) :: r
      else (k', v') :: bucket_put k v r
  end.

(** The logical contents of a store file: its named buckets. *)
Abbreviation store := (gmap string bucket).

(** The records of a bucket of a store; none under a name it lacks. *)
Definition contents (s : store) (name : string) : bucket :=
  match s !! name with Some b => b | None => [] end.

Inductive error : Type :=
| EngineError (code : nat)            (* an error returned by the engine *)
| ErrCreateBucket (e : error)         (* "create bucket: %s" *)
| ErrPut (e : error)                  (* "put: " *)
| ErrInvalidCount (count want : Z)    (* "invalid insert count: %d != %d" *)
| ErrUsage.                           (* "usage: copy-bench PATH" *)

(** What a run does, in order: the engine calls it makes and the lines it
    writes. *)
Inductive event : Type :=
| TxBegin (writable : bool)
| TxPut (k v : list byte)
| TxCommit
| TxAbort (e : error)                 (* a write transaction gave up with [e] *)
| TxClose                             (* a read transaction was released *)
| TxCopy (snapshot : store)           (* [tx.Copy(ioutil.Discard)] streamed this *)
| Print (line : string)               (* [log.Print] / [fmt.Println] of a fixed text *)
| LogRows (count size : Z)            (* "  %d rows, %d bytes" *)
| PrintSize (size : Z)                (* "size: %d bytes" *)
| LogIterate (dur count : Z)          (* "  iterate: %v (n=%d)" *)
| PrintAvg (avg n : Z)                (* "iterate: avg: %v (n=%d)" *)
| PrintCopy (dur : Z)                 (* "copy: %v" *)
| ChanPoll (got : bool)               (* the [select] on the signal channel *)
| LogFatal (e : error).               (* [log.Fatal]: the line, then exit status 1 *)

(** The engine as the harness sees it: the store behind the handle and a
    script of fault decisions, one consumed by each engine call that can
    fail ([None]: the call succeeds; an exhausted script: no more faults). *)
Record world : Type := World {
  w_store : store;
  w_faults : list (option nat)
}.

Inductive result (A : Type) : Type :=
| Val (a : A)
| Panic (msg : string)                (* a run-time panic: the process dies *)
| Spin.                               (* the loop did not end within the fuel *)
Arguments Val {A} a.
Arguments Panic {A} msg.
Arguments Spin {A}.

Definition M (A : Type) : Type := world -> result A * world * list event.

#[global] Instance M_ret : MRet M := fun A a w => (Val a, w, []).

#[global] Instance M_bind : MBind M := fun A B k m w =>
  match m w with
  | (Val a, w1, t1) => let '(r, w2, t2) := k a w1 in (r, w2, t1 ++ t2)
  | (Panic s, w1, t1) => (Panic s, w1, t1)
  | (Spin, w1, t1) => (Spin, w1, t1)
  end.

Definition emit (e : event) : M unit := fun w => (Val tt, w, [e]).
Definition panic {A} (msg : string) : M A := fun w => (Panic msg, w, []).
Definition spin {A} : M A := fun w => (Spin, w, []).
Definition get_store : M store := fun w => (Val (w_store w), w, []).
Definition set_store (s : store) : M unit :=
  fun w => (Val tt, World s (w_faults w), []).

(** The next fault decision. *)
Definition fault : M (option error) := fun w =>
  match w_faults w with
  | [] => (Val None, w, [])
  | d :: rest => (Val (EngineError <$> d), World (w_store w) rest, [])
  end.

Section Engine.

(** [tx.Size()]: the size in bytes the engine reports for a transaction's
    view; it depends on the engine's page layout, which the harness does
    not see. *)
Variable tx_size : store -> Z.

(** [tx.CreateBucketIfNotExists(name)]: the handle, or the engine's error. *)
Definition CreateBucketIfNotExists (name : string) : M (string + error) :=
  d ← fault;
  match d with
  | Some e => mret (inr e)
  | None =>
      s ← get_store;
      match s !! name with
      | Some _ => mret (inl name)
      | None => set_store (<[name := []]> s);; mret (inl name)
      end
  end.

(** [b.Put(k, v)] *)
Definition Bucket_Put (b : string) (k v : list byte) : M (option error) :=
  d ← fault;
  match d with
  | Some e => mret (Some e)
  | None =>
      s ← get_store;
      set_store (<[b := bucket_put k v (contents s b)]> s);;
      emit (TxPut k v);;
      mret None
  end.

Definition Tx_Size : M Z := s ← get_store; mret (tx_size s).

(** [tx.Bucket(name)]: the handle, or nil. *)
Definition Tx_Bucket (name : string) : M (option string) :=
  s ← get_store;
  mret (match s !! name with Some _ => Some name | None => None end).

(** [tx.Copy(w)] into [ioutil.Discard]. *)
Definition Tx_Copy : M (option error) :=
  d ← fault;
  match d with
  | Some e => mret (Some e)
  | None => s ← get_store; emit (TxCopy s);; mret None
  end.

(** [db.Update(fn)]: [fn] runs on the transaction's own view; the view
    replaces the store when [fn] returns nil and the commit succeeds, and
    is dropped otherwise.  [fn] is a closure: next to its error it hands
    back the variables of the caller it assigns to. *)
Definition Update {S : Type} (fn : M (option error * S)) : M (option error * S) :=
  s0 ← get_store;
  emit (TxBegin true);;
  '(err, vars) ← fn;
  match err with
  | Some e => set_store s0;; emit (TxAbort e);; mret (Some e, vars)
  | None =>
      d ← fault;
      match d with
      | Some e => set_store s0;; emit (TxAbort e);; mret (Some e, vars)
      | None => emit TxCommit;; mret (None, vars)
      end
  end.

(** [db.View(fn)]: [fn] runs on a read-only view, which is always
    released. *)
Definition View {S : Type} (fn : M (option error * S)) : M (option error * S) :=
  s0 ← get_store;
  emit (TxBegin false);;
  r ← fn;
  set_store s0;;
  emit TxClose;;
  mret r.

End Engine.

(** ** The harness *)

(** The constants of main.go, gathered so that the scenario of the
    specification (a hundred records) runs through the same code. *)
Record config : Type := Config {
  batchSize : Z;
  itemCount : Z;
  keySize : Z;
  valueSize : Z;
  iteratePct : QArith_base.Q
}.

Definition bench_config : config :=
  {| batchSize := 10000; itemCount := 4000000; keySize := 8;
     valueSize := 1024; iteratePct := QArith_base.Qmake 2 10 |}.

Definition scenario_config : config :=
  {| batchSize := 10; itemCount := 100; keySize := 8;
     valueSize := 1024; iteratePct := QArith_base.Qmake 5 10 |}.

Section Harness.

Variable tx_size : store -> Z.
Variable cfg : config.

(** *** seed *)

(** The inner loop of a batch, [n] iterations from the end; [count] is the
    captured counter. *)
Fixpoint seed_puts (n : nat) (b : string) (count : Z) : M (option error * Z) :=
  match n with
  | O => mret (None, count)
  | S n' =>
      let k := make_bytes (keySize cfg) in
      let v := make_bytes (valueSize cfg) in
      match PutUint64 k (uint64 count) with
      | None => panic "index out of range"
      | Some k =>
          err ← Bucket_Put b k v;
          match err with
          | Some e => mret (Some (ErrPut e), count)
          | None => seed_puts n' b (wrap64 (count + 1))
          end
      end
  end.

(** The closure passed to [db.Update]; it assigns to [count] and [size]. *)
Definition seed_batch (count size : Z) : M (option error * (Z * Z)) :=
  r ← CreateBucketIfNotExists "root";
  match r with
  | inr e => mret (Some (ErrCreateBucket e), (count, size))
  | inl b =>
      '(err, count) ← seed_puts (Z.to_nat (batchSize cfg)) b count;
      match err with
      | Some e => mret (Some e, (count, size))
      | None => size ← Tx_Size tx_size; mret (None, (count, size))
      end
  end.

(** [for i := 0; i < itemCount; i += batchSize] *)
Fixpoint seed_loop (fuel : nat) (i count size : Z) : M (option error * Z) :=
  if i <? itemCount cfg then
    match fuel with
    | O => spin
    | S fuel' =>
        '(err, (count, size)) ← Update (seed_batch count size);
        match err with
        | Some e => mret (Some e, count)
        | None =>
            emit (LogRows count size);;
            seed_loop fuel' (wrap64 (i + batchSize cfg)) count size
        end
    end
  else mret (None, count).

Definition seed : M (option error) :=
  emit (Print "seeding");;
  '(err, count) ← seed_loop (Z.to_nat (itemCount cfg)) 0 0 0;
  match err with
  | Some e => mret (Some e)
  | None =>
      emit (Print "(done)");;
      emit (Print "");;
      if negb (count =? itemCount cfg)
      then mret (Some (ErrInvalidCount count (itemCount cfg)))
      else mret None
  end.

(** *** stat *)

Definition stat : M (option error) :=
  '(err, _) ← View (size ← Tx_Size tx_size;
                    emit (PrintSize size);;
                    emit (Print "");;
                    mret (None, tt));
  mret err.

(** *** iterate *)

(** [uint64(itemCount*iteratePct)]: a constant expression, which Go
    evaluates exactly and converts only when the product is an integer;
    rounding down agrees with it there. *)
Definition iterate_bound : Z :=
  uint64 (Qround.Qfloor
            (QArith_base.Qmult (QArith_base.inject_Z (itemCount cfg)) (iteratePct cfg))).

(** [for k, _ := c.First(); k != nil && bytes.Compare(k, max) == -1;
    k, _ = c.Next() { count++ }] over what the cursor has left. *)
Fixpoint scan_loop (max : list byte) (rest : bucket) (count : Z) : Z :=
  match rest with
  | [] => count
  | (k, _) :: rest' =>
      if bytes_Compare k max =? -1
      then scan_loop max rest' (wrap64 (count + 1))
      else count
  end.

(** The closure passed to [db.View]; it assigns to [count].  [Cursor] on
    the nil bucket of a missing name dereferences nil. *)
Definition scan (max : list byte) : M (option error * Z) :=
  b ← Tx_Bucket "root";
  match b with
  | None => panic "invalid memory address or nil pointer dereference"
  | Some b =>
      s ← get_store;
      mret (None, scan_loop max (contents s b) 0)
  end.

(** What one pass of the loop observes of its surroundings: the two
    readings of [time.Since(t)] and whether the [select] finds a token. *)
Record tick : Type := Tick {
  since_log : Z;
  since_acc : Z;
  stop : bool
}.

(** The loop body up to the [select]. *)
Definition iteration (max : list byte) (o : tick) (d n : Z) : M (Z * Z) :=
  '(_, count) ← View (scan max);
  emit (LogIterate (since_log o) count);;
  mret (wrap64 (d + since_acc o), wrap64 (n + 1)).

(** The loop, one pass for each tick of the script; a script without a
    token leaves the worker looping. *)
Fixpoint iterate_loop (max : list byte) (script : list tick) (d n : Z) : M (Z * Z) :=
  match script with
  | [] => spin
  | o :: script' =>
      '(d, n) ← iteration max o d n;
      emit (ChanPoll (stop o));;
      if stop o then mret (d, n) else iterate_loop max script' d n
  end.

(** The report after the loop. *)
Definition report (d n : Z) : M unit :=
  match int64_div d n with
  | None => panic "integer divide by zero"
  | Some avg => emit (PrintAvg avg n)
  end.

Definition iterate (script : list tick) : M unit :=
  match PutUint64 (make_bytes (keySize cfg)) iterate_bound with
  | None => panic "index out of range"
  | Some max =>
      '(d, n) ← iterate_loop max script 0 0;
      report d n
  end.

(** *** dbcopy *)

Definition dbcopy (elapsed : Z) : M (option error) :=
  '(err, _) ← View (e ← Tx_Copy; mret (e, tt));
  match err with
  | Some e => mret (Some e)
  | None => emit (PrintCopy elapsed);; mret None
  end.

(** *** main, up to the first phase *)

(** [log.Fatal(err)] when [err] is not nil; the value is the exit status. *)
Definition fatal_on (err : option error) : M (option Z) :=
  match err with
  | Some e => emit (LogFatal e);; mret (Some 1)
  | None => mret None
  end.

(** After [bolt.Open]: seed a new file, print the size. *)
Definition main_opened (isNew : bool) : M (option Z) :=
  err ← (if isNew then seed else mret None);
  st ← fatal_on err;
  match st with
  | Some code => mret (Some code)
  | None => err ← stat; fatal_on err
  end.

(** [bolt.Open(path, 0600)]: the contents behind the handle (those of the
    file, or none for a file it has to create), or the engine's error. *)
Definition Open (path : string) (files : gmap string store)
    (faults : list (option nat)) : (store + error) * list (option nat) :=
  match faults with
  | Some code :: rest => (inr (EngineError code), rest)
  | None :: rest => (inl (default ∅ (files !! path)), rest)
  | [] => (inl (default ∅ (files !! path)), [])
  end.

(** [main] on a file system, up to the first phase: the exit status if it
    ends there, the file system and fault script it leaves, its events. *)
Definition main_init (path : string) (files : gmap string store)
    (faults : list (option nat))
  : result (option Z) * gmap string store * list (option nat) * list event :=
  if bool_decide (path = "") then (Val (Some 1), files, faults, [LogFatal ErrUsage])
  else
    (* os.Stat, os.IsNotExist *)
    let isNew := bool_decide (files !! path = None) in
    (* bolt.Open creates the file when there is none *)
    match Open path files faults with
    | (inr e, faults) => (Val (Some 1), files, faults, [LogFatal e])
    | (inl db, faults) =>
        let '(r, w, t) := main_opened isNew (World db faults) in
        (r, <[path := w_store w]> files, w_faults w, t)
    end.

(** [if err := dbcopy(db); err != nil { log.Fatal(err) }] *)
Definition main_dbcopy (elapsed : Z) : M (option Z) :=
  err ← dbcopy elapsed; fatal_on err.

End Harness.

(** ** The dataset the seeder is meant to write *)

(** The key of record [i]: the eight big-endian bytes of [i]. *)
Definition key_of (i : Z) : list byte := be_digits 8 i.

Definition payload (cfg : config) : list byte := make_bytes (valueSize cfg).

(** Records [0 .. m-1], in key order. *)
Definition records (cfg : config) (m : Z) : bucket :=
  (fun i => (key_of i, payload cfg)) <$> seqZ 0 m.

(** The store after one more put into "root", and after a run of them. *)
Definition put_record (cfg : config) (s : store) (i : Z) : store :=
  <["root" := bucket_put (key_of i) (payload cfg) (contents s "root")]> s.

Definition put_range (cfg : config) (s : store) (c j : Z) : store :=
  fold_left (put_record cfg) (seqZ c j) s.

Definition create_root (s : store) : store :=
  match s !! "root" with Some _ => s | None => <["root" := []]> s end.

Definition put_events (cfg : config) (c j : Z) : list event :=
  (fun i => TxPut (key_of i) (payload cfg)) <$> seqZ c j.

(** Configurations the harness is built for: a positive batch size, a
    positive item count within [int], the key and value sizes of main.go. *)
Definition wf_config (cfg : config) : Prop :=
  0 < batchSize cfg ∧ 0 < itemCount cfg ∧
  itemCount cfg + batchSize cfg < 2 ^ 63 ∧
  keySize cfg = 8 ∧ valueSize cfg = 1024.

(** The decision a fault script gives next, and what is left of it. *)
Definition next_fault (fs : list (option nat)) : option nat :=
  match fs with d :: _ => d | [] => None end.

(** The store that holds records [0 .. c-1] and nothing else; before the
    first batch there is no "root". *)
Definition seeded (cfg : config) (c : Z) : store :=
  if c =? 0 then ∅ else {["root" := records cfg c]}.

(** The engine calls among the events of a run. *)
Definition is_tx_event (e : event) : bool :=
  match e with
  | TxBegin _ | TxPut _ _ | TxCommit | TxAbort _ | TxClose | TxCopy _ => true
  | _ => false
  end.

Definition tx_events (t : list event) : list event := filter is_tx_event t.

(** A fault script that makes no engine call fail. *)
Definition quiet (fs : list (option nat)) : Prop := Forall (fun d => d = None) fs.

(** *** What the batches of the seeder leave *)

Section Batches.

Variable tx_size : store -> Z.
Variable cfg : config.

(** What a batch that commits leaves and logs. *)
Definition batch_store (s : store) (c : Z) : store :=
  put_range cfg (create_root s) c (batchSize cfg).

Definition batch_events (c : Z) : list event :=
  TxBegin true :: put_events cfg c (batchSize cfg) ++ [TxCommit].

(** The store and the events after [m] batches, the first from [c]. *)
Fixpoint batches_store (s : store) (c : Z) (m : nat) : store :=
  match m with
  | O => s
  | S m' => batches_store (batch_store s c) (c + batchSize cfg) m'
  end.

Fixpoint batches_trace (s : store) (c : Z) (m : nat) : list event :=
  match m with
  | O => []
  | S m' =>
      batch_events c
      ++ LogRows (c + batchSize cfg) (tx_size (batch_store s c))
      :: batches_trace (batch_store s c) (c + batchSize cfg) m'
  end.

End Batches.

(** The errors a batch transaction can end with. *)
Definition is_tx_error (e : error) : Prop :=
  ∃ code, e = ErrCreateBucket (EngineError code)
        ∨ e = ErrPut (EngineError code)
        ∨ e = EngineError code.

(** ** The three phases: goroutines and the signal channel *)

(** Where a worker goroutine stands in [iterate]. *)
Inductive wpc : Type :=
| WLoop       (* in the loop, before its next pass *)
| WSelect     (* in the loop, a pass finished, at the [select] *)
| WExit       (* out of the loop by [break loop], before the report *)
| WDone.      (* returned *)

Record worker : Type := Worker { wk_pc : wpc; wk_d : Z; wk_n : Z }.

(** The statements of [main] from [c := make(chan bool)] on. *)
Inductive instr : Type :=
| IPrint (line : string)      (* fmt.Println *)
| IGo                         (* go iterate(db, c) *)
| ISend                       (* c <- true *)
| ISleep (ns : Z)             (* time.Sleep *)
| ICopy.                      (* if err := dbcopy(db); err != nil { log.Fatal(err) } *)

Definition main_phases : list instr :=
  [ IPrint "first run (ignore)"; IGo; ISend; IPrint "";
    IPrint "iterate only"; IGo; ISleep 2000000000; ISend; IPrint "";
    IPrint "iterate during copy"; IGo; ICopy; ISend; ISleep 100000000 ].

Inductive pstatus : Type :=
| Running
| Exited (code : Z)
| Crashed (msg : string).

(** The process: what [main] has left to do, whether it is blocked in a
    send on the unbuffered channel, the workers started so far, the engine,
    the output. *)
Record proc : Type := Proc {
  p_main : list instr;
  p_parked : bool;
  p_workers : list worker;
  p_world : world;
  p_out : list event;
  p_status : pstatus
}.

Definition boot (w : world) : proc := Proc main_phases false [] w [] Running.

(** A scheduling decision: [main] or a worker runs its next step, with
    the clock readings that step makes.  Time is not modelled: a sleep is
    a step like any other, so every order in which the goroutines can take
    their steps is a schedule. *)
Inductive action : Type :=
| AMain (elapsed : Z)
| AWorker (i : nat) (since_log since_acc : Z).

Definition in_loop (wk : worker) : bool :=
  match wk_pc wk with WLoop | WSelect => true | _ => false end.

Section Phases.

Variable cfg : config.

(** One pass of worker [wk], with the bound it computed on entry. *)
Definition worker_pass (o : tick) (wk : worker) : M (Z * Z) :=
  match PutUint64 (make_bytes (keySize cfg)) (iterate_bound cfg) with
  | None => panic "index out of range"
  | Some max => iteration max o (wk_d wk) (wk_n wk)
  end.

Definition main_step (elapsed : Z) (p : proc) : proc :=
  match p_main p with
  | [] => Proc [] (p_parked p) (p_workers p) (p_world p) (p_out p) (Exited 0)
  | IPrint line :: rest =>
      Proc rest false (p_workers p) (p_world p) (p_out p ++ [Print line]) Running
  | IGo :: rest =>
      Proc rest false (p_workers p ++ [Worker WLoop 0 0]) (p_world p) (p_out p) Running
  | ISleep _ :: rest =>
      Proc rest false (p_workers p) (p_world p) (p_out p) Running
  | ISend :: rest =>
      (* blocks until a worker receives *)
      Proc (ISend :: rest) true (p_workers p) (p_world p) (p_out p) Running
  | ICopy :: rest =>
      match main_dbcopy elapsed (p_world p) with
      | (Val None, w, t) => Proc rest false (p_workers p) w (p_out p ++ t) Running
      | (Val (Some code), w, t) =>
          Proc rest false (p_workers p) w (p_out p ++ t) (Exited code)
      | (Panic msg, w, t) =>
          Proc rest false (p_workers p) w (p_out p ++ t) (Crashed msg)
      | (Spin, w, t) => p
      end
  end.

Definition worker_step (i : nat) (since_log since_acc : Z) (p : proc) : proc :=
  match p_workers p !! i with
  | None => p
  | Some wk =>
      match wk_pc wk with
      | WLoop =>
          match worker_pass (Tick since_log since_acc false) wk (p_world p) with
          | (Val (d, n), w, t) =>
              Proc (p_main p) (p_parked p) (<[i := Worker WSelect d n]> (p_workers p))
                   w (p_out p ++ t) Running
          | (Panic msg, w, t) =>
              Proc (p_main p) (p_parked p) (p_workers p) w (p_out p ++ t) (Crashed msg)
          | (Spin, w, t) => p
          end
      | WSelect =>
          if p_parked p then
            (* case <-c: the send of main completes; break loop *)
            Proc (tail (p_main p)) false
                 (<[i := Worker WExit (wk_d wk) (wk_n wk)]> (p_workers p))
                 (p_world p) (p_out p ++ [ChanPoll true]) Running
          else
            (* default *)
            Proc (p_main p) false
                 (<[i := Worker WLoop (wk_d wk) (wk_n wk)]> (p_workers p))
                 (p_world p) (p_out p ++ [ChanPoll false]) Running
      | WExit =>
          match report (wk_d wk) (wk_n wk) (p_world p) with
          | (Val _, w, t) =>
              Proc (p_main p) (p_parked p)
                   (<[i := Worker WDone (wk_d wk) (wk_n wk)]> (p_workers p))
                   w (p_out p ++ t) Running
          | (Panic msg, w, t) =>
              Proc (p_main p) (p_parked p) (p_workers p) w (p_out p ++ t) (Crashed msg)
          | (Spin, w, t) => p
          end
      | WDone => p
      end
  end.

(** A step of the process; nothing moves once it has exited or crashed. *)
Definition sched_step (p : proc) (a : action) : proc :=
  match p_status p with
  | Running =>
      match a with
      | AMain elapsed => main_step elapsed p
      | AWorker i sl sa => worker_step i sl sa p
      end
  | _ => p
  end.

Definition exec (sched : list action) (p : proc) : proc :=
  fold_left sched_step sched p.

End Phases.

(** [main] keeps a worker in its loop exactly between a [go] and the
    send that follows it. *)
Fixpoint wellphased (live : bool) (prog : list instr) : bool :=
  match prog with
  | [] => true
  | IGo :: rest => negb live && wellphased true rest
  | ISend :: rest => live && wellphased false rest
  | _ :: rest => wellphased live rest
  end.

Definition live_count (ws : list worker) : nat := length (filter in_loop ws).

(** ** What a worker does with a script *)

(** The ticks the loop consumes: those up to and including the first that
    finds a token. *)
Fixpoint passes (script : list tick) : list tick :=
  match script with
  | [] => []
  | o :: rest => if stop o then [o] else o :: passes rest
  end.

(** The events of one pass that counts [count] rows. *)
Definition pass_events (count : Z) (o : tick) : list event :=
  [TxBegin false; TxClose; LogIterate (since_log o) count; ChanPoll (stop o)].

(** [d] and [n] after the passes [ps]. *)
Definition accumulate (d : Z) (ps : list tick) : Z :=
  fold_left (fun d o => wrap64 (d + since_acc o)) ps d.

Definition tally (n : Z) (ps : list tick) : Z :=
  fold_left (fun n (_ : tick) => wrap64 (n + 1)) ps n.

Definition nil_deref : string := "invalid memory address or nil pointer dereference".

(** ** Vocabulary of the claims *)

(** The number of records of a bucket whose key is strictly below [max]. *)
Definition keys_below (max : list byte) (recs : list (list byte * list byte)) : nat :=
  length (filter (fun kv => bytes_Compare kv.1 max = -1) recs).

(** The sum of the durations a worker adds up. *)
Definition total_duration (ps : list tick) : Z :=
  fold_right Z.add 0 (since_acc <$> ps).

Definition b2n (b : bool) : nat := if b then 1%nat else 0%nat.

(** What the phases keep true: the workers in their loop are as many as
    [main] has started and not yet signalled, one at most, and a blocked
    [main] is blocked in a send. *)
Definition phase_inv (p : proc) : Prop :=
  ∃ live : bool,
    wellphased live (p_main p) = true
    ∧ live_count (p_workers p) = b2n live
    ∧ (p_parked p = true -> ∃ rest, p_main p = ISend :: rest).

(** The row counts a run logs, one for each pass. *)
Definition logged_counts (t : list event) : list Z :=
  omap (fun e => match e with LogIterate _ c => Some c | _ => None end) t.

(** The polls of the signal channel among the events of a run. *)
Definition is_poll (e : event) : bool :=
  match e with ChanPoll _ => true | _ => false end.

(** ** Runs to try the harness on *)

(** A size function and runs to try the harness on. *)
Definition example_size : store -> Z := fun _ => 4096.

Definition scenario_seed : result (option error) * world * list event :=
  seed example_size scenario_config (World ∅ []).

(** Under this script the commit of the second batch fails. *)
Definition commit_faults : list (option nat) := replicate 23 None ++ [Some 7%nat].

Definition scenario_failed : result (option error) * world * list event :=
  seed example_size scenario_config (World ∅ commit_faults).

Definition tick1 : tick := Tick 5 6 false.
Definition tick2 : tick := Tick 7 9 true.
Definition tick3 : tick := Tick 1 1 false.

Definition scenario_store : store := {["root" := records scenario_config 100]}.

Definition scenario_boot
  : result (option Z) * gmap string store * list (option nat) * list event :=
  main_init example_size scenario_config "bench.db" ∅ [].

(** A store file that was there before the run, with a small "root". *)
Definition store3 : store := {["root" := records bench_config 3]}.

(** [main] starts the first worker and blocks in its send; the worker ends
    its pass and takes the token; [main] prints its two lines and is at the
    second [go] while the first worker has not reported yet. *)
Definition handoff_schedule : list action :=
  [AMain 0; AMain 0; AWorker 0 10 11; AMain 0; AWorker 0 0 0; AMain 0; AMain 0].

(** "No worker is started before the one before it has returned." *)
Definition starts_after_report (cfg : config) (w : world) : Prop :=
  ∀ sched a,
    let p := exec cfg sched (boot w) in
    (length (p_workers p) < length (p_workers (sched_step cfg p a)))%nat ->
    Forall (fun wk => wk_pc wk = WDone) (p_workers p).

(** ** Vocabulary of the further properties *)

(** A bucket as a cursor must find it: keys strictly ascending in byte
    order. *)
Fixpoint bucket_sorted (b : bucket) : Prop :=
  match b with
  | [] => True
  | kv :: rest =>
      Forall (fun kv' => bytes_Compare kv.1 kv'.1 = -1) rest ∧ bucket_sorted rest
  end.

(** The cumulative counts of the progress lines of a run. *)
Definition logged_rows (t : list event) : list Z :=
  omap (fun e => match e with LogRows c _ => Some c | _ => None end) t.

(** The transactions a run committed. *)
Definition is_commit (e : event) : bool :=
  match e with TxCommit => true | _ => false end.

Definition commits (t : list event) : nat := length (filter is_commit t).

(** A configuration whose batch size does not divide its item count, and
    one whose batches are empty. *)
Definition ragged_config : config :=
  {| batchSize := 30; itemCount := 100; keySize := 8;
     valueSize := 1024; iteratePct := QArith_base.Qmake 5 10 |}.

Definition stuck_config : config :=
  {| batchSize := 0; itemCount := 100; keySize := 8;
     valueSize := 1024; iteratePct := QArith_base.Qmake 5 10 |}.

(** A fault script for a whole run of the scenario: [bolt.Open] succeeds,
    the commit of the second batch fails. *)
Definition boot_faults : list (option nat) := None :: commit_faults.

Definition scenario_failed_boot
  : result (option Z) * gmap string store * list (option nat) * list event :=
  main_init example_size scenario_config "bench.db" ∅ boot_faults.

(** Counting in what [main] has left to do and in what was written. *)
Definition is_go (i : instr) : bool := match i with IGo => true | _ => false end.
Definition is_send (i : instr) : bool := match i with ISend => true | _ => false end.
Definition is_copy (i : instr) : bool := match i with ICopy => true | _ => false end.

Definition gos (prog : list instr) : nat := length (filter is_go prog).
Definition sends (prog : list instr) : nat := length (filter is_send prog).
Definition has_copy (prog : list instr) : bool := existsb is_copy prog.

(** The tokens workers have received. *)
Definition is_token (e : event) : bool :=
  match e with ChanPoll true => true | _ => false end.

Definition tokens (t : list event) : nat := length (filter is_token t).

(** Whether the duration of the copy has been printed. *)
Definition is_copy_line (e : event) : bool :=
  match e with PrintCopy _ => true | _ => false end.

Definition copied (t : list event) : bool := existsb is_copy_line t.

(** What holds at every point of the phases: [main] is somewhere in its
    program; workers started and tokens received add up with the [go]s and
    sends still ahead; every token has taken one worker out of its loop;
    the copy line is there once the copy is behind; an exit is the return
    of [main] or the fatal error of the copy. *)
Definition run_inv (p : proc) : Prop :=
  (∃ k, p_main p = drop k main_phases)
  ∧ (length (p_workers p) + gos (p_main p) = 3)%nat
  ∧ (tokens (p_out p) + sends (p_main p) = 3)%nat
  ∧ length (p_workers p) = (live_count (p_workers p) + tokens (p_out p))%nat
  ∧ (p_parked p = true -> ∃ rest, p_main p = ISend :: rest)
  ∧ (has_copy (p_main p) = true -> copied (p_out p) = false)
  ∧ (has_copy (p_main p) = false -> copied (p_out p) = true ∨ p_status p = Exited 1)
  ∧ (∀ code, p_status p = Exited code ->
       (code = 0 ∧ p_main p = [])
       ∨ (code = 1 ∧ copied (p_out p) = false
          ∧ ∃ c, last (p_out p) = Some (LogFatal (EngineError c)))).

(** A schedule that takes the run to the copy, and on to the return of
    [main]. *)
Definition schedule_to_copy : list action :=
  [AMain 0; AMain 0; AWorker 0 10 11; AMain 0; AWorker 0 0 0;
   AMain 0; AMain 0; AMain 0; AMain 0; AMain 0; AWorker 1 12 13; AWorker 1 0 0;
   AMain 0; AMain 0; AMain 0].

Definition schedule_to_exit : list action :=
  schedule_to_copy
  ++ [AMain 77; AWorker 2 14 15; AMain 0; AWorker 2 0 0; AMain 0; AMain 0].



(** * Proofs *)

(** ** The key encoding *)

Lemma byte_val_range b : 0 <= byte_val b < 256.
Proof.
  unfold byte_val. pose proof (Byte.to_N_bounded b) as H.
  lia.
Qed.

Lemma byte_val_to_byte z : byte_val (to_byte z) = z mod 256.
Proof.
  unfold to_byte, byte_val.
  change 255 with (Z.ones 8). rewrite Z.land_ones by lia.
  change (2 ^ 8) with 256.
  pose proof (Z.mod_pos_bound z 256 eq_refl) as Hr.
  destruct (Byte.of_N (Z.to_N (z mod 256))) as [b|] eqn:E.
  - simpl. apply Byte.to_of_N in E. rewrite E. lia.
  - apply Byte.of_N_None_iff in E. lia.
Qed.

Lemma byte_val_inj a b : byte_val a = byte_val b -> a = b.
Proof.
  unfold byte_val. intros H. apply N2Z.inj in H.
  apply (f_equal Byte.of_N) in H. rewrite !Byte.of_to_N in H. congruence.
Qed.

Lemma be_value_acc l acc :
  fold_left (fun a b => a * 256 + byte_val b) l acc
  = acc * 256 ^ Z.of_nat (length l) + be_value l.
Proof.
  unfold be_value. revert acc.
  induction l as [|x l IH]; intros acc; simpl fold_left.
  - simpl. lia.
  - rewrite (IH (acc * 256 + byte_val x)), (IH (0 * 256 + byte_val x)).
    simpl length. rewrite Nat2Z.inj_succ, Z.pow_succ_r by lia. lia.
Qed.

Lemma be_value_cons x l :
  be_value (x :: l) = byte_val x * 256 ^ Z.of_nat (length l) + be_value l.
Proof.
  unfold be_value at 1. simpl fold_left. rewrite be_value_acc. lia.
Qed.

Lemma be_value_snoc l x : be_value (l ++ [x]) = be_value l * 256 + byte_val x.
Proof. unfold be_value. rewrite fold_left_app. reflexivity. Qed.

Lemma be_value_range l : 0 <= be_value l < 256 ^ Z.of_nat (length l).
Proof.
  induction l as [|x l IH].
  - unfold be_value. simpl. lia.
  - rewrite be_value_cons. simpl length.
    rewrite Nat2Z.inj_succ, Z.pow_succ_r by lia.
    pose proof (byte_val_range x). nia.
Qed.

Lemma be_digits_length n v : length (be_digits n v) = n.
Proof.
  revert v. induction n as [|n IH]; intros v; simpl; [reflexivity|].
  rewrite length_app, IH. simpl. lia.
Qed.

Lemma be_value_digits n v : be_value (be_digits n v) = v mod 256 ^ Z.of_nat n.
Proof.
  revert v. induction n as [|n IH]; intros v.
  - simpl. unfold be_value. simpl. rewrite Z.mod_1_r. reflexivity.
  - simpl be_digits. rewrite be_value_snoc, IH, byte_val_to_byte.
    rewrite Nat2Z.inj_succ, Z.pow_succ_r by lia.
    assert (0 < 256 ^ Z.of_nat n) by (apply Z.pow_pos_nonneg; lia).
    rewrite Z.rem_mul_r by lia. lia.
Qed.

(** On strings of one length, [bytes.Compare] is the order of the
    big-endian values. *)
Lemma bytes_Compare_be a b :
  length a = length b ->
  bytes_Compare a b = cmp_sign (be_value a ?= be_value b).
Proof.
  revert b. induction a as [|x a IH]; intros [|y b] Hlen; try discriminate.
  - reflexivity.
  - simpl in Hlen. injection Hlen as Hlen.
    simpl bytes_Compare. rewrite !be_value_cons, <- Hlen.
    pose proof (be_value_range a) as Ha. pose proof (be_value_range b) as Hb.
    rewrite <- Hlen in Hb.
    assert (0 < 256 ^ Z.of_nat (length a)) as Hp by (apply Z.pow_pos_nonneg; lia).
    destruct (Z.ltb_spec (byte_val x) (byte_val y)) as [Hxy|Hxy].
    { replace (_ ?= _) with Lt; [reflexivity|]. symmetry. apply Z.compare_lt_iff. nia. }
    destruct (Z.ltb_spec (byte_val y) (byte_val x)) as [Hyx|Hyx].
    { replace (_ ?= _) with Gt; [reflexivity|]. symmetry. apply Z.compare_gt_iff. nia. }
    assert (byte_val x = byte_val y) as -> by lia.
    rewrite (IH b Hlen). f_equal.
    destruct (Z.compare_spec (be_value a) (be_value b)) as [E|E|E].
    + rewrite E. symmetry. apply Z.compare_refl.
    + symmetry. apply Z.compare_lt_iff. lia.
    + symmetry. apply Z.compare_gt_iff. lia.
Qed.

(** [PutUint64] on a fresh eight-byte slice writes the eight big-endian
    digits of its argument. *)
Lemma PutUint64_digits v : PutUint64 (make_bytes 8) v = Some (be_digits 8 v).
Proof.
  unfold PutUint64, make_bytes. simpl.
  rewrite !Z.shiftr_div_pow2 by lia.
  rewrite !Zdiv_Zdiv by lia. reflexivity.
Qed.

Lemma bench_config_wf : wf_config bench_config.
Proof. unfold wf_config, bench_config; simpl; lia. Qed.

Lemma scenario_config_wf : wf_config scenario_config.
Proof. unfold wf_config, scenario_config; simpl; lia. Qed.

(** ** Running the monad *)

Lemma run_bind {A B} (m : M A) (k : A -> M B) w :
  (m ≫= k) w =
  match m w with
  | (Val a, w1, t1) => let '(r, w2, t2) := k a w1 in (r, w2, t1 ++ t2)
  | (Panic s, w1, t1) => (Panic s, w1, t1)
  | (Spin, w1, t1) => (Spin, w1, t1)
  end.
Proof. reflexivity. Qed.

Lemma run_ret {A} (a : A) w : (mret a : M A) w = (Val a, w, []).
Proof. reflexivity. Qed.

Lemma run_emit e w : emit e w = (Val tt, w, [e]).
Proof. reflexivity. Qed.

Lemma run_Tx_Size tx_size s fs :
  Tx_Size tx_size (World s fs) = (Val (tx_size s), World s fs, []).
Proof. reflexivity. Qed.

Lemma run_get_store s fs : get_store (World s fs) = (Val s, World s fs, []).
Proof. reflexivity. Qed.

Lemma run_panic {A} msg w : @panic A msg w = (Panic msg, w, []).
Proof. reflexivity. Qed.

Ltac run :=
  repeat (first [ rewrite run_bind | rewrite run_ret | rewrite run_emit
                | rewrite run_Tx_Size | rewrite run_get_store
                | rewrite run_panic | rewrite app_nil_r ];
          cbn beta iota delta [app]).

Lemma run_fault s fs :
  fault (World s fs) = (Val (EngineError <$> next_fault fs), World s (tail fs), []).
Proof. destruct fs; reflexivity. Qed.

Lemma run_Bucket_Put b k v s fs :
  Bucket_Put b k v (World s fs) =
  match next_fault fs with
  | Some code => (Val (Some (EngineError code)), World s (tail fs), [])
  | None =>
      (Val None, World (<[b := bucket_put k v (contents s b)]> s) (tail fs),
       [TxPut k v])
  end.
Proof. destruct fs as [|[code|] fs]; reflexivity. Qed.

Lemma run_Create name s fs :
  CreateBucketIfNotExists name (World s fs) =
  match next_fault fs with
  | Some code => (Val (inr (EngineError code)), World s (tail fs), [])
  | None =>
      (Val (inl name),
       World (match s !! name with Some _ => s | None => <[name := []]> s end) (tail fs),
       [])
  end.
Proof.
  unfold CreateBucketIfNotExists. rewrite run_bind, run_fault.
  destruct (next_fault fs); [reflexivity|].
  change (EngineError <$> None) with (@None error). cbn beta iota.
  rewrite run_bind. unfold get_store at 1. cbn beta iota delta [w_store].
  destruct (s !! name); reflexivity.
Qed.

Lemma run_Update {S} (fn : M (option error * S)) s fs :
  Update fn (World s fs) =
  match fn (World s fs) with
  | (Val (Some e, vars), w1, t1) =>
      (Val (Some e, vars), World s (w_faults w1), TxBegin true :: t1 ++ [TxAbort e])
  | (Val (None, vars), w1, t1) =>
      match next_fault (w_faults w1) with
      | Some code =>
          (Val (Some (EngineError code), vars), World s (tail (w_faults w1)),
           TxBegin true :: t1 ++ [TxAbort (EngineError code)])
      | None =>
          (Val (None, vars), World (w_store w1) (tail (w_faults w1)),
           TxBegin true :: t1 ++ [TxCommit])
      end
  | (Panic msg, w1, t1) => (Panic msg, w1, TxBegin true :: t1)
  | (Spin, w1, t1) => (Spin, w1, TxBegin true :: t1)
  end.
Proof.
  unfold Update. rewrite run_bind. unfold get_store at 1.
  cbn beta iota delta [w_store]. rewrite run_bind. unfold emit at 1.
  cbn beta iota. rewrite run_bind.
  destruct (fn (World s fs)) as [[[[[e|] vars]|msg|] [s1 fs1]] t1]; try reflexivity.
  destruct fs1 as [|[code|] fs1]; reflexivity.
Qed.

Lemma run_View {S} (fn : M (option error * S)) s fs :
  View fn (World s fs) =
  match fn (World s fs) with
  | (Val r, w1, t1) => (Val r, World s (w_faults w1), TxBegin false :: t1 ++ [TxClose])
  | (Panic msg, w1, t1) => (Panic msg, w1, TxBegin false :: t1)
  | (Spin, w1, t1) => (Spin, w1, TxBegin false :: t1)
  end.
Proof.
  unfold View. rewrite run_bind. unfold get_store at 1.
  cbn beta iota delta [w_store]. rewrite run_bind. unfold emit at 1.
  cbn beta iota. rewrite run_bind.
  destruct (fn (World s fs)) as [[[r|msg|] [s1 fs1]] t1]; reflexivity.
Qed.

Lemma wrap64_id z : - 2 ^ 63 <= z < 2 ^ 63 -> wrap64 z = z.
Proof.
  intros H. unfold wrap64.
  rewrite Z.mod_small by lia. lia.
Qed.

Lemma uint64_id z : 0 <= z < 2 ^ 64 -> uint64 z = z.
Proof. intros H. unfold uint64. apply Z.mod_small. lia. Qed.

Lemma put_range_0 cfg s c : put_range cfg s c 0 = s.
Proof. reflexivity. Qed.

Lemma put_range_cons cfg s c j :
  0 < j -> put_range cfg s c j = put_range cfg (put_record cfg s c) (c + 1) (j - 1).
Proof.
  intros H. unfold put_range. rewrite (seqZ_cons c j) by lia. reflexivity.
Qed.

Lemma put_events_cons cfg c j :
  0 < j ->
  put_events cfg c j = TxPut (key_of c) (payload cfg) :: put_events cfg (c + 1) (j - 1).
Proof.
  intros H. unfold put_events. rewrite (seqZ_cons c j) by lia. reflexivity.
Qed.

(** ** Keys in order *)

Lemma key_of_length i : length (key_of i) = 8%nat.
Proof. apply be_digits_length. Qed.

Lemma key_of_value i : 0 <= i < 2 ^ 64 -> be_value (key_of i) = i.
Proof.
  intros H. unfold key_of. rewrite be_value_digits.
  change (256 ^ Z.of_nat 8) with (2 ^ 64). apply Z.mod_small. lia.
Qed.

(** The encoding keeps the order of the counters. *)
Lemma key_of_Compare a b :
  0 <= a < 2 ^ 64 -> 0 <= b < 2 ^ 64 ->
  bytes_Compare (key_of a) (key_of b) = cmp_sign (a ?= b).
Proof.
  intros Ha Hb.
  rewrite bytes_Compare_be by (rewrite !key_of_length; reflexivity).
  rewrite !key_of_value by lia. reflexivity.
Qed.

Lemma key_of_inj a b :
  0 <= a < 2 ^ 64 -> 0 <= b < 2 ^ 64 -> key_of a = key_of b -> a = b.
Proof.
  intros Ha Hb H. apply (f_equal be_value) in H.
  rewrite !key_of_value in H by lia. done.
Qed.

(** A key above all keys of a bucket goes to its end. *)
Lemma bucket_put_last k v (b : bucket) :
  Forall (fun kv => bytes_Compare k kv.1 = 1) b ->
  bucket_put k v b = b ++ [(k, v)].
Proof.
  induction 1 as [|[k' v'] b Hk Hb IH]; [reflexivity|].
  simpl in Hk. cbn [bucket_put]. rewrite Hk. cbn. rewrite IH. reflexivity.
Qed.

Lemma records_snoc cfg m :
  0 <= m -> records cfg (m + 1) = records cfg m ++ [(key_of m, payload cfg)].
Proof.
  intros Hm. unfold records. rewrite seqZ_app by lia.
  rewrite fmap_app. rewrite (seqZ_cons (0 + m) 1) by lia.
  rewrite (seqZ_nil _ (Z.pred 1)) by lia. reflexivity.
Qed.

Lemma bucket_put_records cfg m :
  0 <= m < 2 ^ 64 ->
  bucket_put (key_of m) (payload cfg) (records cfg m) = records cfg (m + 1).
Proof.
  intros Hm. rewrite records_snoc by lia. apply bucket_put_last.
  unfold records. apply Forall_fmap, Forall_seqZ. intros i Hi.
  unfold compose. cbn [fst]. rewrite key_of_Compare by lia.
  replace (m ?= i) with Gt; [reflexivity|]. symmetry. apply Z.compare_gt_iff. lia.
Qed.

(** Puts of [c], [c+1], ... into a root that holds records [0 .. c-1]. *)
Lemma put_range_records cfg c (j : nat) :
  0 <= c -> c + Z.of_nat j <= 2 ^ 64 ->
  put_range cfg {["root" := records cfg c]} c (Z.of_nat j)
  = {["root" := records cfg (c + Z.of_nat j)]}.
Proof.
  revert c. induction j as [|j IH]; intros c Hc Hj.
  - rewrite Z.add_0_r. reflexivity.
  - rewrite put_range_cons by lia.
    replace (Z.of_nat (S j) - 1) with (Z.of_nat j) by lia.
    unfold put_record at 1, contents. rewrite lookup_singleton_eq.
    rewrite insert_singleton_eq, bucket_put_records by lia.
    rewrite IH by lia. f_equal. f_equal. lia.
Qed.

Lemma create_root_seeded cfg c :
  create_root (seeded cfg c) = {["root" := records cfg c]}.
Proof.
  unfold create_root, seeded. destruct (Z.eqb_spec c 0) as [->|Hc].
  - rewrite lookup_empty, insert_empty. reflexivity.
  - rewrite lookup_singleton_eq. reflexivity.
Qed.

Lemma tx_events_app t1 t2 : tx_events (t1 ++ t2) = tx_events t1 ++ tx_events t2.
Proof. apply filter_app. Qed.

Lemma tx_events_put_events cfg c j : tx_events (put_events cfg c j) = put_events cfg c j.
Proof.
  unfold put_events, tx_events. induction (seqZ c j) as [|i l IH]; [reflexivity|].
  cbn [fmap list_fmap]. rewrite filter_cons_True by done. f_equal. apply IH.
Qed.

Lemma quiet_next fs : quiet fs -> next_fault fs = None.
Proof. destruct 1; [reflexivity|done]. Qed.

Lemma quiet_tail fs : quiet fs -> quiet (tail fs).
Proof. destruct 1; [constructor|done]. Qed.

Lemma noisy_next fs code : next_fault fs = Some code -> ¬ quiet fs.
Proof. intros H Hq. rewrite (quiet_next _ Hq) in H. discriminate. Qed.

Lemma noisy_tail fs : ¬ quiet (tail fs) -> ¬ quiet fs.
Proof. intros H Hq. apply H, quiet_tail, Hq. Qed.

Section SeedProofs.

Variable tx_size : store -> Z.
Variable cfg : config.
Hypothesis Hwf : wf_config cfg.

(** The inner loop: it puts records [c], [c+1], ... until the batch is
    full or a put fails; [count] has advanced by the puts that succeeded. *)
Lemma seed_puts_spec n c s fs :
  0 <= c -> c + Z.of_nat n < 2 ^ 63 ->
  ∃ (j : nat) err fs',
    seed_puts cfg n "root" c (World s fs)
    = (Val (err, c + Z.of_nat j),
       World (put_range cfg s c (Z.of_nat j)) fs',
       put_events cfg c (Z.of_nat j))
    ∧ (quiet fs -> quiet fs')
    ∧ ((j = n ∧ err = None)
       ∨ ((j < n)%nat ∧ ¬ quiet fs ∧ ∃ code, err = Some (ErrPut (EngineError code)))).
Proof.
  destruct Hwf as (_ & _ & _ & Hks & _).
  revert c s fs. induction n as [|n IH]; intros c s fs Hc Hn.
  - exists 0%nat, None, fs. split; [|split; [done|left; done]].
    simpl. rewrite Z.add_0_r. reflexivity.
  - cbn [seed_puts]. rewrite Hks, uint64_id, PutUint64_digits by lia.
    fold (key_of c). fold (payload cfg).
    rewrite run_bind, run_Bucket_Put.
    destruct (next_fault fs) as [code|] eqn:Hf.
    + exists 0%nat, (Some (ErrPut (EngineError code))), (tail fs).
      split; [|split; [apply quiet_tail|right; split; [lia|split; [by eapply noisy_next|eauto]]]].
      rewrite Z.add_0_r. reflexivity.
    + destruct (IH (c + 1) (put_record cfg s c) (tail fs)) as (j & err & fs' & Hrun & Hq & Hj);
        [lia|lia|].
      exists (S j), err, fs'. split; [|split; [intros; by apply Hq, quiet_tail|]].
      * rewrite (put_range_cons cfg s c (Z.of_nat (S j))) by lia.
        rewrite (put_events_cons cfg c (Z.of_nat (S j))) by lia.
        replace (Z.of_nat (S j) - 1) with (Z.of_nat j) by lia.
        replace (c + Z.of_nat (S j)) with (c + 1 + Z.of_nat j) by lia.
        rewrite wrap64_id by lia.
        change (<["root" := _]> s) with (put_record cfg s c).
        rewrite Hrun. reflexivity.
      * destruct Hj as [[-> ->]|(Hlt & Hnq & Hc')]; [left; done|].
        right. split; [lia|]. split; [by apply noisy_tail|done].
Qed.

(** The closure of a batch, run on its own. *)
Lemma seed_batch_run c size s fs :
  0 <= c -> c + batchSize cfg < 2 ^ 63 ->
  ∃ fs',
    (quiet fs -> quiet fs') ∧
    (seed_batch tx_size cfg c size (World s fs)
     = (Val (None, (c + batchSize cfg, tx_size (batch_store cfg s c))),
        World (batch_store cfg s c) fs', put_events cfg c (batchSize cfg))
     ∨ ∃ e vars j s',
         (∃ code, e = ErrCreateBucket (EngineError code) ∨ e = ErrPut (EngineError code))
         ∧ ¬ quiet fs ∧ 0 <= j <= batchSize cfg ∧
         seed_batch tx_size cfg c size (World s fs)
         = (Val (Some e, vars), World s' fs', put_events cfg c j)).
Proof.
  intros Hc Hn.
  assert (0 < batchSize cfg) as Hbs by (destruct Hwf; done).
  unfold seed_batch. rewrite run_bind, run_Create.
  destruct (next_fault fs) as [code|] eqn:Hf.
  { exists (tail fs). split; [apply quiet_tail|]. right.
    exists (ErrCreateBucket (EngineError code)), (c, size), 0, s.
    split; [exists code; auto|]. split; [by eapply noisy_next|].
    split; [lia|]. reflexivity. }
  fold (create_root s).
  destruct (seed_puts_spec (Z.to_nat (batchSize cfg)) c (create_root s) (tail fs))
    as (j & err & fs' & Hrun & Hq & Hj); [lia|lia|].
  rewrite run_bind, Hrun. exists fs'.
  split; [intros; by apply Hq, quiet_tail|].
  destruct Hj as [[-> ->]|(Hlt & Hnq & [code ->])].
  - left. rewrite Z2Nat.id by lia. fold (batch_store cfg s c).
    run. reflexivity.
  - right.
    exists (ErrPut (EngineError code)), (c + Z.of_nat j, size), (Z.of_nat j),
      (put_range cfg (create_root s) c (Z.of_nat j)).
    split; [exists code; auto|]. split; [by apply noisy_tail|]. split; [lia|].
    run. reflexivity.
Qed.

Lemma seed_batch_spec c size s fs :
  0 <= c -> c + batchSize cfg < 2 ^ 63 ->
  ∃ fs',
    (quiet fs -> quiet fs') ∧
    (Update (seed_batch tx_size cfg c size) (World s fs)
     = (Val (None, (c + batchSize cfg, tx_size (batch_store cfg s c))),
        World (batch_store cfg s c) fs', batch_events cfg c)
     ∨ ∃ e vars j,
         is_tx_error e ∧ ¬ quiet fs ∧ 0 <= j <= batchSize cfg ∧
         Update (seed_batch tx_size cfg c size) (World s fs)
         = (Val (Some e, vars), World s fs',
            TxBegin true :: put_events cfg c j ++ [TxAbort e])).
Proof.
  intros Hc Hn. rewrite run_Update.
  assert (0 < batchSize cfg) as Hbs by (destruct Hwf; done).
  destruct (seed_batch_run c size s fs Hc Hn)
    as (fs1 & Hq & [Hrun|(e & vars & j & s' & [code He] & Hnq & Hj & Hrun)]); rewrite Hrun.
  - cbn [w_faults w_store]. destruct (next_fault fs1) as [code|] eqn:Hf.
    + exists (tail fs1). split; [intros; by apply quiet_tail, Hq|]. right.
      exists (EngineError code), (c + batchSize cfg, tx_size (batch_store cfg s c)),
        (batchSize cfg).
      split; [exists code; auto|].
      split; [intros Hqf; by eapply noisy_next, Hq|]. split; [lia|]. reflexivity.
    + exists (tail fs1). split; [intros; by apply quiet_tail, Hq|]. left. reflexivity.
  - exists fs1. split; [done|]. right. exists e, vars, j.
    split; [exists code; tauto|]. split; [done|]. split; [lia|]. reflexivity.
Qed.

(** The outer loop from [i = count = c]: some number [m] of batches commit;
    then either the range is covered and the loop ends, or the next
    transaction fails and the loop returns its error at once. *)
Lemma seed_loop_spec fuel c size s fs :
  0 <= c -> itemCount cfg - c <= Z.of_nat fuel * batchSize cfg ->
  ∃ (m : nat) fs',
    (itemCount cfg <= c + Z.of_nat m * batchSize cfg
     ∧ (m = 0%nat ∨ c + Z.of_nat m * batchSize cfg < itemCount cfg + batchSize cfg)
     ∧ seed_loop tx_size cfg fuel c c size (World s fs)
       = (Val (None, c + Z.of_nat m * batchSize cfg),
          World (batches_store cfg s c m) fs', batches_trace tx_size cfg s c m))
    ∨ (c + Z.of_nat m * batchSize cfg < itemCount cfg
       ∧ ¬ quiet fs
       ∧ ∃ e cnt j,
           is_tx_error e ∧ 0 <= j <= batchSize cfg
           ∧ seed_loop tx_size cfg fuel c c size (World s fs)
             = (Val (Some e, cnt), World (batches_store cfg s c m) fs',
                batches_trace tx_size cfg s c m
                ++ TxBegin true
                   :: put_events cfg (c + Z.of_nat m * batchSize cfg) j
                   ++ [TxAbort e])).
Proof.
  destruct Hwf as (Hbs & Hic & Hmax & _).
  revert c size s fs. induction fuel as [|fuel IH]; intros c size s fs Hc Hfuel.
  - exists 0%nat, fs. left. split; [lia|]. split; [auto|].
    cbn [seed_loop]. destruct (Z.ltb_spec c (itemCount cfg)); [lia|].
    rewrite Z.add_0_r. reflexivity.
  - destruct (Z.ltb_spec c (itemCount cfg)) as [Hlt|Hge].
    2:{ exists 0%nat, fs. left. split; [lia|]. split; [auto|].
        cbn [seed_loop]. destruct (Z.ltb_spec c (itemCount cfg)); [lia|].
        rewrite Z.add_0_r. reflexivity. }
    cbn [seed_loop]. destruct (Z.ltb_spec c (itemCount cfg)) as [_|?]; [|lia].
    rewrite run_bind.
    destruct (seed_batch_spec c size s fs)
      as (fs1 & Hq & [Hrun|(e & vars & j & He & Hnq & Hj & Hrun)]);
      [lia|lia| |]; rewrite Hrun.
    + destruct (IH (c + batchSize cfg) (tx_size (batch_store cfg s c)) (batch_store cfg s c) fs1)
        as (m & fs' & [(Hend & Hlast & Hloop)|(Hin & Hnq & e & cnt & j & He & Hj & Hloop)]);
        [lia|lia| |].
      * exists (S m), fs'. left.
        replace (c + Z.of_nat (S m) * batchSize cfg)
          with (c + batchSize cfg + Z.of_nat m * batchSize cfg) by lia.
        split; [lia|]. split; [right; destruct Hlast as [->|?]; lia|].
        run. rewrite wrap64_id by lia. rewrite Hloop.
        cbn [batches_store batches_trace]. reflexivity.
      * exists (S m), fs'. right.
        replace (c + Z.of_nat (S m) * batchSize cfg)
          with (c + batchSize cfg + Z.of_nat m * batchSize cfg) by lia.
        split; [lia|]. split; [intros Hqf; by apply Hnq, Hq|].
        exists e, cnt, j. split; [done|]. split; [lia|].
        run. rewrite wrap64_id by lia. rewrite Hloop.
        cbn [batches_store batches_trace]. rewrite <- ?app_assoc. reflexivity.
    + exists 0%nat, fs1. right. rewrite Z.add_0_r. split; [lia|]. split; [done|].
      exists e, (fst vars), j. split; [done|]. split; [lia|].
      destruct vars as [cnt sz]. run. reflexivity.
Qed.

Lemma batch_store_seeded c :
  0 <= c -> c + batchSize cfg <= 2 ^ 64 ->
  batch_store cfg (seeded cfg c) c = seeded cfg (c + batchSize cfg).
Proof.
  intros Hc Hn. destruct Hwf as (Hbs & _).
  unfold batch_store. rewrite create_root_seeded.
  rewrite <- (Z2Nat.id (batchSize cfg)) at 1 by lia.
  rewrite put_range_records by lia. rewrite Z2Nat.id by lia.
  unfold seeded. destruct (Z.eqb_spec (c + batchSize cfg) 0); [lia|reflexivity].
Qed.

Lemma batches_store_seeded c m :
  0 <= c -> c + Z.of_nat m * batchSize cfg <= 2 ^ 64 ->
  batches_store cfg (seeded cfg c) c m = seeded cfg (c + Z.of_nat m * batchSize cfg).
Proof.
  destruct Hwf as (Hbs & _).
  revert c. induction m as [|m IH]; intros c Hc Hn.
  - cbn [batches_store]. f_equal. lia.
  - cbn [batches_store]. rewrite batch_store_seeded by lia.
    rewrite IH by lia. f_equal. lia.
Qed.

Lemma tx_events_batch_events c : tx_events (batch_events cfg c) = batch_events cfg c.
Proof.
  unfold batch_events. change (TxBegin true :: ?l) with ([TxBegin true] ++ l).
  rewrite !tx_events_app, tx_events_put_events. reflexivity.
Qed.

(** Batch [i] is one transaction that puts the records from [i*batchSize]. *)
Lemma tx_events_batches s c k m :
  c = k * batchSize cfg ->
  tx_events (batches_trace tx_size cfg s c m)
  = concat ((fun i => batch_events cfg (i * batchSize cfg)) <$> seqZ k (Z.of_nat m)).
Proof.
  revert s c k. induction m as [|m IH]; intros s c k Hc.
  - reflexivity.
  - cbn [batches_trace]. rewrite (seqZ_cons k) by lia.
    replace (Z.pred (Z.of_nat (S m))) with (Z.of_nat m) by lia.
    cbn [fmap list_fmap concat]. rewrite tx_events_app, tx_events_batch_events.
    rewrite <- Hc. f_equal.
    change (LogRows ?a ?b :: ?l) with ([LogRows a b] ++ l).
    rewrite tx_events_app. cbn [app].
    apply IH. lia.
Qed.

(** Every run of [seed]: [m] batches commit; then the loop has covered the
    range and the count is checked, or the next transaction has failed and
    its error is returned. *)
Lemma seed_spec s fs :
  ∃ (m : nat) fs',
    (itemCount cfg <= Z.of_nat m * batchSize cfg < itemCount cfg + batchSize cfg
     ∧ seed tx_size cfg (World s fs)
       = (Val (if Z.of_nat m * batchSize cfg =? itemCount cfg then None
               else Some (ErrInvalidCount (Z.of_nat m * batchSize cfg) (itemCount cfg))),
          World (batches_store cfg s 0 m) fs',
          Print "seeding" :: batches_trace tx_size cfg s 0 m ++ [Print "(done)"; Print ""]))
    ∨ (Z.of_nat m * batchSize cfg < itemCount cfg
       ∧ ¬ quiet fs
       ∧ ∃ e j,
           is_tx_error e ∧ 0 <= j <= batchSize cfg
           ∧ seed tx_size cfg (World s fs)
             = (Val (Some e), World (batches_store cfg s 0 m) fs',
                Print "seeding" :: batches_trace tx_size cfg s 0 m
                ++ TxBegin true :: put_events cfg (Z.of_nat m * batchSize cfg) j
                ++ [TxAbort e])).
Proof.
  pose proof Hwf as (Hbs & Hic & Hmax & _).
  destruct (seed_loop_spec (Z.to_nat (itemCount cfg)) 0 0 s fs)
    as (m & fs' & [(Hend & Hlast & Hloop)|(Hin & Hnq & e & cnt & j & He & Hj & Hloop)]);
    [lia|nia| |]; exists m, fs'; rewrite Z.add_0_l in *.
  - left. split; [destruct Hlast as [->|?]; lia|].
    unfold seed. run. rewrite Hloop. run.
    destruct (Z.eqb_spec (Z.of_nat m * batchSize cfg) (itemCount cfg)); run; reflexivity.
  - right. split; [done|]. split; [done|]. exists e, j. split; [done|]. split; [done|].
    unfold seed. run. rewrite Hloop. run. reflexivity.
Qed.

End SeedProofs.

Section IterateProofs.

Variable cfg : config.

Lemma scan_run max s fs recs :
  s !! "root" = Some recs ->
  scan max (World s fs) = (Val (None, scan_loop max recs 0), World s fs, []).
Proof.
  intros H. unfold scan, Tx_Bucket. run. rewrite H. run.
  unfold contents. rewrite H. reflexivity.
Qed.

Lemma scan_run_nil max s fs :
  s !! "root" = None -> scan max (World s fs) = (Panic nil_deref, World s fs, []).
Proof.
  intros H. unfold scan, Tx_Bucket. run. rewrite H. reflexivity.
Qed.

Lemma iteration_run max o d n s fs recs :
  s !! "root" = Some recs ->
  iteration max o d n (World s fs)
  = (Val (wrap64 (d + since_acc o), wrap64 (n + 1)), World s fs,
     [TxBegin false; TxClose; LogIterate (since_log o) (scan_loop max recs 0)]).
Proof.
  intros H. unfold iteration. rewrite run_bind, run_View, (scan_run _ _ _ _ H).
  run. reflexivity.
Qed.

Lemma iteration_run_nil max o d n s fs :
  s !! "root" = None ->
  iteration max o d n (World s fs) = (Panic nil_deref, World s fs, [TxBegin false]).
Proof.
  intros H. unfold iteration. rewrite run_bind, run_View, (scan_run_nil _ _ _ H).
  reflexivity.
Qed.

(** The loop on a store that has a "root": one block of events for each
    pass; it ends with the first tick that finds a token. *)
Lemma iterate_loop_spec max script d n s fs recs :
  s !! "root" = Some recs ->
  iterate_loop max script d n (World s fs)
  = ((if existsb stop script
      then Val (accumulate d (passes script), tally n (passes script))
      else Spin),
     World s fs,
     concat (pass_events (scan_loop max recs 0) <$> passes script)).
Proof.
  intros H. revert d n. induction script as [|o script IH]; intros d n.
  - reflexivity.
  - cbn [iterate_loop existsb passes]. rewrite run_bind, (iteration_run _ _ _ _ _ _ _ H).
    run. destruct (stop o) eqn:Hs.
    + run. cbn [orb fmap list_fmap concat accumulate tally fold_left pass_events app].
      rewrite Hs. reflexivity.
    + rewrite IH. cbn [orb fmap list_fmap concat accumulate tally fold_left pass_events app].
      rewrite Hs. destruct (existsb stop script); reflexivity.
Qed.

End IterateProofs.

(** ** Counting below the bound *)

Lemma scan_loop_range cfg b a (n : nat) cnt :
  0 <= a -> a + Z.of_nat n <= 2 ^ 63 -> 0 <= b < 2 ^ 64 ->
  0 <= cnt -> cnt + Z.of_nat n < 2 ^ 63 ->
  scan_loop (key_of b) ((fun i => (key_of i, payload cfg)) <$> seqZ a (Z.of_nat n)) cnt
  = cnt + Z.max 0 (Z.min (b - a) (Z.of_nat n)).
Proof.
  revert a cnt. induction n as [|n IH]; intros a cnt Ha Hn Hb Hc Hcn.
  - rewrite seqZ_nil by lia. cbn [fmap list_fmap scan_loop]. lia.
  - rewrite seqZ_cons by lia.
    replace (Z.pred (Z.of_nat (S n))) with (Z.of_nat n) by lia.
    cbn [fmap list_fmap scan_loop]. rewrite key_of_Compare by lia.
    destruct (Z.compare_spec a b) as [E|E|E]; cbn [cmp_sign Z.eqb Pos.eqb].
    + lia.
    + rewrite wrap64_id by lia. rewrite IH by lia. lia.
    + lia.
Qed.

Lemma keys_below_range cfg b a (n : nat) :
  0 <= a -> a + Z.of_nat n <= 2 ^ 63 -> 0 <= b < 2 ^ 64 ->
  Z.of_nat (keys_below (key_of b)
              ((fun i => (key_of i, payload cfg)) <$> seqZ a (Z.of_nat n)))
  = Z.max 0 (Z.min (b - a) (Z.of_nat n)).
Proof.
  unfold keys_below. revert a. induction n as [|n IH]; intros a Ha Hn Hb.
  - rewrite seqZ_nil by lia. cbn [fmap list_fmap filter list_filter length]. lia.
  - rewrite seqZ_cons by lia.
    replace (Z.pred (Z.of_nat (S n))) with (Z.of_nat n) by lia.
    cbn [fmap list_fmap]. specialize (IH (Z.succ a)).
    destruct (Z.compare_spec a b) as [E|E|E].
    + rewrite filter_cons_False.
      2:{ cbn [fst]. rewrite key_of_Compare by lia. subst. rewrite Z.compare_refl. done. }
      rewrite IH by lia. lia.
    + rewrite filter_cons_True.
      2:{ cbn [fst]. rewrite key_of_Compare by lia.
          assert ((a ?= b) = Lt) as -> by (apply Z.compare_lt_iff; lia). done. }
      cbn [length]. rewrite Nat2Z.inj_succ, IH by lia. lia.
    + rewrite filter_cons_False.
      2:{ cbn [fst]. rewrite key_of_Compare by lia.
          assert ((a ?= b) = Gt) as -> by (apply Z.compare_gt_iff; lia). done. }
      rewrite IH by lia. lia.
Qed.

(** A scan of the seeded dataset counts the keys below the bound. *)
Lemma scan_loop_records cfg b m :
  0 <= m < 2 ^ 63 -> 0 <= b < 2 ^ 64 ->
  scan_loop (key_of b) (records cfg m) 0 = Z.min b m
  ∧ Z.of_nat (keys_below (key_of b) (records cfg m)) = Z.min b m.
Proof.
  intros Hm Hb. unfold records.
  rewrite <- (Z2Nat.id m) at 1 3 by lia.
  rewrite scan_loop_range, keys_below_range by lia. lia.
Qed.

(** ** The counters of a worker *)

Lemma wrap64_add_l a b : wrap64 (wrap64 a + b) = wrap64 (a + b).
Proof.
  unfold wrap64. f_equal.
  replace ((a + 2 ^ 63) mod 2 ^ 64 - 2 ^ 63 + b + 2 ^ 63)
    with ((a + 2 ^ 63) mod 2 ^ 64 + b) by lia.
  rewrite Zplus_mod_idemp_l. f_equal. lia.
Qed.

Lemma accumulate_total d ps :
  accumulate (wrap64 d) ps = wrap64 (d + total_duration ps).
Proof.
  unfold accumulate, total_duration. revert d.
  induction ps as [|o ps IH]; intros d; cbn [fold_left fmap list_fmap fold_right].
  - f_equal. lia.
  - rewrite wrap64_add_l, IH. f_equal. lia.
Qed.

Lemma tally_length n ps :
  0 <= n -> n + Z.of_nat (length ps) < 2 ^ 63 ->
  tally n ps = n + Z.of_nat (length ps).
Proof.
  unfold tally. revert n. induction ps as [|o ps IH]; intros n Hn Hlen.
  - cbn. lia.
  - cbn [fold_left length] in *. rewrite wrap64_id by lia.
    rewrite IH by lia. lia.
Qed.

Lemma passes_length script : (length (passes script) <= length script)%nat.
Proof.
  induction script as [|o script IH]; cbn [passes length]; [lia|].
  destruct (stop o); cbn [length]; lia.
Qed.

Lemma passes_stopped script :
  existsb stop script = true -> (1 <= length (passes script))%nat.
Proof.
  destruct script as [|o script]; [discriminate|].
  cbn [passes]. destruct (stop o); cbn [length]; lia.
Qed.

(** All passes but the last find no token; the last finds one exactly
    when the script has one. *)
Lemma passes_shape script :
  ∃ pre, Forall (fun o => stop o = false) pre
       ∧ ((existsb stop script = true
           ∧ ∃ o post, stop o = true ∧ passes script = pre ++ [o]
                      ∧ script = pre ++ o :: post)
          ∨ (existsb stop script = false ∧ passes script = pre ∧ script = pre)).
Proof.
  induction script as [|o script (pre & Hpre & IH)].
  - exists []. split; [constructor|]. right. done.
  - cbn [passes existsb]. destruct (stop o) eqn:Hs.
    + exists []. split; [constructor|]. left. split; [done|].
      exists o, script. done.
    + exists (o :: pre). split; [by constructor|]. cbn [orb].
      destruct IH as [(He & o' & post & Ho' & Hp & Hscr)|(He & Hp & Hscr)].
      * left. split; [done|]. exists o', post.
        split; [done|]. split; cbn [app]; congruence.
      * right. split; [done|]. split; congruence.
Qed.

Section IterateSpec.

Variable cfg : config.
Hypothesis Hks : keySize cfg = 8.

(** [iterate] on a store that has a "root". *)
Lemma iterate_spec script s fs recs :
  s !! "root" = Some recs ->
  iterate cfg script (World s fs)
  = let count := scan_loop (key_of (iterate_bound cfg)) recs 0 in
    let ps := passes script in
    if existsb stop script then
      match int64_div (accumulate 0 ps) (tally 0 ps) with
      | Some avg =>
          (Val tt, World s fs,
           concat (pass_events count <$> ps) ++ [PrintAvg avg (tally 0 ps)])
      | None =>
          (Panic "integer divide by zero", World s fs,
           concat (pass_events count <$> ps))
      end
    else (Spin, World s fs, concat (pass_events count <$> ps)).
Proof.
  intros H. unfold iterate. rewrite Hks, PutUint64_digits. fold (key_of (iterate_bound cfg)).
  rewrite run_bind, (iterate_loop_spec _ _ _ _ _ _ _ H).
  cbn zeta. destruct (existsb stop script); [|reflexivity].
  cbn beta iota. unfold report.
  destruct (int64_div _ _); run; reflexivity.
Qed.

(** [iterate] on a store without a "root": the first pass panics inside
    its read transaction. *)
Lemma iterate_nil o script s fs :
  s !! "root" = None ->
  iterate cfg (o :: script) (World s fs) = (Panic nil_deref, World s fs, [TxBegin false]).
Proof.
  intros H. unfold iterate. rewrite Hks, PutUint64_digits.
  cbn [iterate_loop]. rewrite !run_bind, (iteration_run_nil _ _ _ _ _ _ H).
  reflexivity.
Qed.

End IterateSpec.

(** ** Hand-off between the phases *)

Lemma live_count_cons wk ws : live_count (wk :: ws) = (b2n (in_loop wk) + live_count ws)%nat.
Proof.
  unfold live_count. rewrite filter_cons.
  destruct (in_loop wk); reflexivity.
Qed.

Lemma live_count_app ws1 ws2 :
  live_count (ws1 ++ ws2) = (live_count ws1 + live_count ws2)%nat.
Proof. unfold live_count. rewrite filter_app, length_app. reflexivity. Qed.

Lemma live_count_insert ws i wk wk' :
  ws !! i = Some wk ->
  (live_count (<[i := wk']> ws) + b2n (in_loop wk)
   = live_count ws + b2n (in_loop wk'))%nat.
Proof.
  revert i. induction ws as [|w0 ws IH]; intros i H; [discriminate|].
  destruct i as [|i]; cbn in H.
  - injection H as ->. cbn [insert list_insert]. rewrite !live_count_cons.
    lia.
  - cbn [insert list_insert]. rewrite !live_count_cons.
    specialize (IH i H).
    apply (f_equal (Nat.add (b2n (in_loop w0)))) in IH.
    rewrite !Nat.add_assoc in IH. exact IH.
Qed.

Lemma live_count_zero ws :
  live_count ws = 0%nat -> Forall (fun wk => wk_pc wk = WExit ∨ wk_pc wk = WDone) ws.
Proof.
  induction ws as [|wk ws IH]; intros H; [constructor|].
  rewrite live_count_cons in H. constructor.
  - unfold in_loop in H. destruct (wk_pc wk); cbn in H; auto; lia.
  - apply IH. lia.
Qed.

Lemma phase_inv_boot w : phase_inv (boot w).
Proof. exists false. split; [reflexivity|]. split; [reflexivity|]. discriminate. Qed.

Section PhaseProofs.

Variable cfg : config.

Ltac psimpl := cbn [p_main p_parked p_workers p_world p_out p_status].

Lemma phase_inv_main elapsed p : phase_inv p -> phase_inv (main_step elapsed p).
Proof.
  intros (live & Hwp & Hcnt & Hpark). unfold main_step.
  destruct (p_main p) as [|[line| | |ns|] rest] eqn:Hmain; cbn [wellphased] in Hwp.
  - exists live. psimpl. split; [done|]. split; [done|].
    intros Hp. destruct (Hpark Hp) as [r Hr]. discriminate.
  - exists live. psimpl. split; [done|]. split; [done|]. discriminate.
  - apply andb_prop in Hwp as [Hl Hwp]. destruct live; [discriminate|].
    exists true. psimpl. split; [done|]. split; [|discriminate].
    rewrite live_count_app, Hcnt. reflexivity.
  - exists live. psimpl. split; [done|]. split; [done|]. eauto.
  - exists live. psimpl. split; [done|]. split; [done|]. discriminate.
  - destruct (main_dbcopy elapsed (p_world p)) as [[[[code|]|msg|] w] t].
    1-3: exists live; psimpl; split; [done|]; split; [done|]; discriminate.
    exists live. rewrite Hmain. cbn [wellphased]. done.
Qed.

Lemma phase_inv_worker i sl sa p : phase_inv p -> phase_inv (worker_step cfg i sl sa p).
Proof.
  intros (live & Hwp & Hcnt & Hpark). unfold worker_step.
  destruct (p_workers p !! i) as [wk|] eqn:Hi; [|by exists live].
  destruct (wk_pc wk) eqn:Hpc.
  - destruct (worker_pass cfg _ wk (p_world p)) as [[[[d n]|msg|] w] t].
    + exists live. psimpl. split; [done|]. split; [|done].
      pose proof (live_count_insert _ _ _ (Worker WSelect d n) Hi) as Hins.
      unfold in_loop in Hins at 1 2. rewrite Hpc in Hins. cbn [wk_pc b2n] in *. lia.
    + by exists live.
    + by exists live.
  - destruct (p_parked p) eqn:Hp.
    + destruct (Hpark eq_refl) as [rest Hmain]. rewrite Hmain in *.
      cbn [wellphased] in Hwp. apply andb_prop in Hwp as [Hl Hwp].
      destruct live; [|discriminate].
      exists false. psimpl. split; [done|]. split; [|discriminate].
      pose proof (live_count_insert _ _ _ (Worker WExit (wk_d wk) (wk_n wk)) Hi) as Hins.
      unfold in_loop in Hins at 1 2. rewrite Hpc in Hins. cbn [wk_pc b2n] in *. lia.
    + exists live. psimpl. split; [done|]. split; [|discriminate].
      pose proof (live_count_insert _ _ _ (Worker WLoop (wk_d wk) (wk_n wk)) Hi) as Hins.
      unfold in_loop in Hins at 1 2. rewrite Hpc in Hins. cbn [wk_pc b2n] in *. lia.
  - destruct (report (wk_d wk) (wk_n wk) (p_world p)) as [[[u|msg|] w] t].
    + exists live. psimpl. split; [done|]. split; [|done].
      pose proof (live_count_insert _ _ _ (Worker WDone (wk_d wk) (wk_n wk)) Hi) as Hins.
      unfold in_loop in Hins at 1 2. rewrite Hpc in Hins. cbn [wk_pc b2n] in *. lia.
    + by exists live.
    + by exists live.
  - by exists live.
Qed.

Lemma phase_inv_step p a : phase_inv p -> phase_inv (sched_step cfg p a).
Proof.
  intros H. unfold sched_step. destruct (p_status p); [|done|done].
  destruct a; [by apply phase_inv_main|by apply phase_inv_worker].
Qed.

Lemma phase_inv_exec sched p : phase_inv p -> phase_inv (exec cfg sched p).
Proof.
  unfold exec. revert p. induction sched as [|a sched IH]; intros p H; [done|].
  cbn [fold_left]. apply IH, phase_inv_step, H.
Qed.

(** A step that adds a worker is the [go] of [main]. *)
Lemma spawn_is_go p a :
  (length (p_workers p) < length (p_workers (sched_step cfg p a)))%nat ->
  ∃ rest, p_main p = IGo :: rest
        ∧ p_workers (sched_step cfg p a) = p_workers p ++ [Worker WLoop 0 0].
Proof.
  unfold sched_step. destruct (p_status p); [|lia|lia].
  destruct a as [elapsed|i sl sa].
  - unfold main_step. destruct (p_main p) as [|[line| | |ns|] rest]; psimpl; try lia.
    + eauto.
    + destruct (main_dbcopy elapsed (p_world p)) as [[[[code|]|msg|] w] t]; psimpl; lia.
  - unfold worker_step. destruct (p_workers p !! i) as [wk|]; [|lia].
    destruct (wk_pc wk).
    + destruct (worker_pass cfg _ wk (p_world p)) as [[[[d n]|msg|] w] t]; psimpl;
        rewrite ?length_insert; lia.
    + destruct (p_parked p); psimpl; rewrite ?length_insert; lia.
    + destruct (report (wk_d wk) (wk_n wk) (p_world p)) as [[[u|msg|] w] t]; psimpl;
        rewrite ?length_insert; lia.
    + lia.
Qed.

End PhaseProofs.

(** ** stat, dbcopy and the start of main *)

Lemma stat_spec tx_size s fs :
  stat tx_size (World s fs)
  = (Val None, World s fs, [TxBegin false; PrintSize (tx_size s); Print ""; TxClose]).
Proof. unfold stat. rewrite run_bind, run_View. run. reflexivity. Qed.

Lemma run_Tx_Copy s fs :
  Tx_Copy (World s fs) =
  match next_fault fs with
  | Some code => (Val (Some (EngineError code)), World s (tail fs), [])
  | None => (Val None, World s (tail fs), [TxCopy s])
  end.
Proof. destruct fs as [|[code|] fs]; reflexivity. Qed.

Lemma dbcopy_spec elapsed s fs :
  dbcopy elapsed (World s fs) =
  match next_fault fs with
  | Some code =>
      (Val (Some (EngineError code)), World s (tail fs), [TxBegin false; TxClose])
  | None =>
      (Val None, World s (tail fs),
       [TxBegin false; TxCopy s; TxClose; PrintCopy elapsed])
  end.
Proof.
  unfold dbcopy. rewrite run_bind, run_View, run_bind, run_Tx_Copy.
  destruct (next_fault fs); run; reflexivity.
Qed.

Lemma main_dbcopy_spec elapsed s fs :
  main_dbcopy elapsed (World s fs) =
  match next_fault fs with
  | Some code =>
      (Val (Some 1), World s (tail fs),
       [TxBegin false; TxClose; LogFatal (EngineError code)])
  | None =>
      (Val None, World s (tail fs),
       [TxBegin false; TxCopy s; TxClose; PrintCopy elapsed])
  end.
Proof.
  unfold main_dbcopy. rewrite run_bind, dbcopy_spec.
  destruct (next_fault fs); run; reflexivity.
Qed.

(** Every run of [seed] starts by announcing itself. *)
Lemma seed_announces tx_size cfg w :
  ∃ r w' t, seed tx_size cfg w = (r, w', Print "seeding" :: t).
Proof.
  unfold seed. rewrite run_bind, run_emit. cbn beta iota.
  match goal with |- context [mbind ?k ?m w] => destruct (mbind k m w) as [[r w'] t] end.
  cbn [app]. eauto.
Qed.

Lemma main_opened_new tx_size cfg w :
  ∃ r w' t, main_opened tx_size cfg true w = (r, w', Print "seeding" :: t).
Proof.
  unfold main_opened. rewrite run_bind.
  destruct (seed_announces tx_size cfg w) as (r & w' & t & ->).
  destruct r as [err|msg|]; [|eauto|eauto].
  match goal with |- context [mbind ?k ?m w'] => destruct (mbind k m w') as [[r2 w2] t2] end.
  cbn [app]. eauto.
Qed.

Lemma main_opened_old tx_size cfg s fs :
  main_opened tx_size cfg false (World s fs)
  = (Val None, World s fs, [TxBegin false; PrintSize (tx_size s); Print ""; TxClose]).
Proof.
  unfold main_opened, fatal_on. run. rewrite stat_spec. run. reflexivity.
Qed.

Lemma Open_ok path files fs :
  next_fault fs = None ->
  Open path files fs = (inl (default ∅ (files !! path)), tail fs).
Proof. destruct fs as [|[code|] fs]; [reflexivity|discriminate|reflexivity]. Qed.

(** ** The phases only read the store *)

Section StoreProofs.

Variable cfg : config.

Lemma worker_pass_store o wk s fs :
  w_store (worker_pass cfg o wk (World s fs)).1.2 = s.
Proof.
  unfold worker_pass. destruct (PutUint64 _ _) as [max|]; [|reflexivity].
  destruct (s !! "root") as [recs|] eqn:H.
  - rewrite (iteration_run _ _ _ _ _ _ _ H). reflexivity.
  - rewrite (iteration_run_nil _ _ _ _ _ _ H). reflexivity.
Qed.

Lemma report_store d n w : (report d n w).1.2 = w.
Proof. unfold report. destruct (int64_div d n); reflexivity. Qed.

Lemma sched_step_store p a :
  w_store (p_world (sched_step cfg p a)) = w_store (p_world p).
Proof.
  destruct p as [main parked ws [s fs] out st].
  unfold sched_step. cbn [p_status]. destruct st; [|done|done].
  destruct a as [elapsed|i sl sa].
  - unfold main_step. cbn [p_main p_world p_workers p_out p_parked].
    destruct main as [|[line| | |ns|] rest]; try reflexivity.
    rewrite main_dbcopy_spec. destruct (next_fault fs); reflexivity.
  - unfold worker_step. cbn [p_main p_world p_workers p_out p_parked].
    destruct (ws !! i) as [wk|]; [|done].
    destruct (wk_pc wk).
    + pose proof (worker_pass_store (Tick sl sa false) wk s fs) as H.
      destruct (worker_pass _ _ _ _) as [[[[d n]|msg|] w] t]; cbn in H |- *; done.
    + destruct parked; reflexivity.
    + pose proof (report_store (wk_d wk) (wk_n wk) (World s fs)) as H.
      destruct (report _ _ _) as [[[u|msg|] w] t]; cbn in H |- *; by subst.
    + done.
Qed.

Lemma exec_store sched p :
  w_store (p_world (exec cfg sched p)) = w_store (p_world p).
Proof.
  unfold exec. revert p. induction sched as [|a sched IH]; intros p; [done|].
  cbn [fold_left]. rewrite IH. apply sched_step_store.
Qed.

End StoreProofs.

(** ** Seeding on the empty store *)

Lemma records_lookup cfg m i :
  0 <= i < m -> records cfg m !! Z.to_nat i = Some (key_of i, payload cfg).
Proof.
  intros H. unfold records. rewrite list_lookup_fmap, lookup_seqZ_lt by lia.
  cbn [fmap option_fmap option_map]. rewrite Z2Nat.id by lia. reflexivity.
Qed.

Lemma records_length cfg m : length (records cfg m) = Z.to_nat m.
Proof. unfold records. rewrite length_fmap. apply length_seqZ. Qed.

Lemma batch_events_no_abort cfg c e : TxAbort e ∉ batch_events cfg c.
Proof.
  unfold batch_events, put_events. intros H.
  apply elem_of_cons in H as [H|H]; [discriminate|].
  apply elem_of_app in H as [H|H].
  - apply list_elem_of_fmap in H as (i & Hi & _). discriminate.
  - apply list_elem_of_singleton in H. discriminate.
Qed.

Lemma batches_no_abort cfg k m e :
  TxAbort e ∉ concat ((fun i => batch_events cfg (i * batchSize cfg)) <$> seqZ k m).
Proof.
  intros H. apply list_elem_of_In, in_concat in H as (l & Hl & He).
  apply list_elem_of_In, list_elem_of_fmap in Hl as (i & -> & _).
  by apply list_elem_of_In, batch_events_no_abort in He.
Qed.

Lemma put_events_no_abort cfg c j e : TxAbort e ∉ put_events cfg c j.
Proof.
  unfold put_events. intros H.
  apply list_elem_of_fmap in H as (i & Hi & _). discriminate.
Qed.

Lemma tx_events_elem e t : is_tx_event e = true -> e ∈ t -> e ∈ tx_events t.
Proof.
  intros He Ht. unfold tx_events. apply list_elem_of_filter. split; [|done].
  rewrite He. done.
Qed.

Section SeedClaims.

Variable tx_size : store -> Z.
Variable cfg : config.
Hypothesis Hwf : wf_config cfg.

(** The engine events of a whole run of [seed] on the empty store. *)
Lemma seed_events fs :
  ∃ (m : nat) fs',
    (itemCount cfg <= Z.of_nat m * batchSize cfg < itemCount cfg + batchSize cfg
     ∧ ∃ tr,
         seed tx_size cfg (World ∅ fs)
         = (Val (if Z.of_nat m * batchSize cfg =? itemCount cfg then None
                 else Some (ErrInvalidCount (Z.of_nat m * batchSize cfg) (itemCount cfg))),
            World (seeded cfg (Z.of_nat m * batchSize cfg)) fs', tr)
         ∧ tx_events tr
           = concat ((fun i => batch_events cfg (i * batchSize cfg))
                       <$> seqZ 0 (Z.of_nat m)))
    ∨ (Z.of_nat m * batchSize cfg < itemCount cfg
       ∧ ¬ quiet fs
       ∧ ∃ e j tr,
           is_tx_error e ∧ 0 <= j <= batchSize cfg
           ∧ seed tx_size cfg (World ∅ fs)
             = (Val (Some e), World (seeded cfg (Z.of_nat m * batchSize cfg)) fs', tr)
           ∧ last tr = Some (TxAbort e)
           ∧ tx_events tr
             = concat ((fun i => batch_events cfg (i * batchSize cfg))
                         <$> seqZ 0 (Z.of_nat m))
               ++ TxBegin true :: put_events cfg (Z.of_nat m * batchSize cfg) j
               ++ [TxAbort e]).
Proof.
  pose proof Hwf as (Hbs & Hic & Hmax & _).
  assert (∀ m : nat, Z.of_nat m * batchSize cfg < itemCount cfg + batchSize cfg ->
            batches_store cfg ∅ 0 m = seeded cfg (Z.of_nat m * batchSize cfg)) as Hstore.
  { intros m Hm. change (∅ : store) with (seeded cfg 0).
    rewrite (batches_store_seeded cfg Hwf) by lia. f_equal. }
  destruct (seed_spec tx_size cfg Hwf ∅ fs)
    as (m & fs' & [(Hrange & Hrun)|(Hlt & Hnq & e & j & He & Hj & Hrun)]);
    exists m, fs'.
  - left. split; [done|]. eexists. rewrite Hrun, Hstore by lia. split; [reflexivity|].
    change (Print "seeding" :: ?l) with ([Print "seeding"] ++ l).
    rewrite !tx_events_app. cbn [tx_events filter list_filter is_tx_event].
    rewrite app_nil_r. apply (tx_events_batches tx_size cfg). lia.
  - right. split; [done|]. split; [done|]. exists e, j. eexists.
    split; [done|]. split; [done|]. rewrite Hrun, Hstore by lia.
    split; [reflexivity|]. split.
    + change (Print "seeding" :: ?l) with ([Print "seeding"] ++ l).
      change (TxBegin true :: ?l) with ([TxBegin true] ++ l).
      rewrite !app_assoc. apply last_snoc.
    + change (Print "seeding" :: ?l) with ([Print "seeding"] ++ l).
      change (TxBegin true :: ?l) with ([TxBegin true] ++ l).
      rewrite !tx_events_app, tx_events_put_events.
      rewrite (tx_events_batches tx_size cfg _ 0 0 m) by lia. reflexivity.
Qed.

(** When the batch size divides the item count, the count check after the
    loop cannot fail. *)
Lemma seed_outcomes s fs :
  (batchSize cfg | itemCount cfg) ->
  ∃ w tr,
    (seed tx_size cfg (World s fs) = (Val None, w, tr))
    ∨ (¬ quiet fs
       ∧ ∃ e, is_tx_error e ∧ seed tx_size cfg (World s fs) = (Val (Some e), w, tr)
              ∧ last tr = Some (TxAbort e)).
Proof.
  intros [q Hq]. pose proof Hwf as (Hbs & Hic & Hmax & _).
  destruct (seed_spec tx_size cfg Hwf s fs)
    as (m & fs' & [(Hrange & Hrun)|(Hlt & Hnq & e & j & He & Hj & Hrun)]).
  - assert (Z.of_nat m = q) as Hm by nia.
    destruct (Z.eqb_spec (Z.of_nat m * batchSize cfg) (itemCount cfg)) as [_|Hne]; [|lia].
    do 2 eexists. left. exact Hrun.
  - do 2 eexists. right. split; [done|]. exists e. split; [done|].
    split; [exact Hrun|].
    change (Print "seeding" :: ?l) with ([Print "seeding"] ++ l).
    change (TxBegin true :: ?l) with ([TxBegin true] ++ l).
    rewrite !app_assoc. apply last_snoc.
Qed.

(** The counter after the loop, when every batch went through. *)
Lemma seed_loop_count s fs :
  (batchSize cfg | itemCount cfg) ->
  ∃ r w tr,
    seed_loop tx_size cfg (Z.to_nat (itemCount cfg)) 0 0 0 (World s fs) = (Val r, w, tr)
    ∧ (r.1 = None -> r.2 = itemCount cfg)
    ∧ (quiet fs -> r.1 = None).
Proof.
  intros [q Hq]. pose proof Hwf as (Hbs & Hic & Hmax & _).
  destruct (seed_loop_spec tx_size cfg Hwf (Z.to_nat (itemCount cfg)) 0 0 s fs)
    as (m & fs' & [(Hend & Hlast & Hloop)|(Hin & Hnq & e & cnt & j & He & Hj & Hloop)]);
    [lia|nia| |]; do 3 eexists; (split; [exact Hloop|]); cbn [fst snd].
  - split; [|done]. intros _. destruct Hlast as [->|Hlast]; [lia|].
    assert (Z.of_nat m = q) as Hm by nia. rewrite Hm. lia.
  - split; [discriminate|]. intros Hqf. by destruct Hnq.
Qed.

End SeedClaims.

(** ** The claims about seeding *)

(** C1 (seed completeness). A run of [seed] on the empty store that returns
    nil leaves exactly one bucket, "root", holding exactly [itemCount]
    records: record [i] has the key [PutUint64] writes for [i], the eight
    big-endian bytes of [i], and a value of 1024 zero bytes, for [i] from 0
    to [itemCount - 1] in this order.  The run made [itemCount / batchSize]
    transactions, all committed; transaction [i] put the [batchSize] records
    from [i * batchSize] on, and nothing else was put.  It holds for every
    configuration of [wf_config], so for the constants of main.go
    ([bench_config_wf]). *)
Theorem seed_complete tx_size cfg fs w tr :
  wf_config cfg ->
  seed tx_size cfg (World ∅ fs) = (Val None, w, tr) ->
  w_store w = {["root" := records cfg (itemCount cfg)]}
  ∧ length (records cfg (itemCount cfg)) = Z.to_nat (itemCount cfg)
  ∧ (∀ i, 0 <= i < itemCount cfg ->
       records cfg (itemCount cfg) !! Z.to_nat i = Some (key_of i, replicate 1024 x00)
       ∧ PutUint64 (make_bytes (keySize cfg)) (uint64 i) = Some (key_of i)
       ∧ length (key_of i) = 8%nat ∧ be_value (key_of i) = i)
  ∧ ∃ nb, itemCount cfg = nb * batchSize cfg
        ∧ tx_events tr
          = concat ((fun i => TxBegin true
                              :: put_events cfg (i * batchSize cfg) (batchSize cfg)
                              ++ [TxCommit]) <$> seqZ 0 nb).
Proof.
  intros Hwf Hrun. pose proof Hwf as (Hbs & Hic & Hmax & Hks & Hvs).
  destruct (seed_events tx_size cfg Hwf fs)
    as (m & fs' & [(Hrange & t & Hseed & Hev)|(_ & _ & e & j & t & _ & _ & Hseed & _)]);
    rewrite Hseed in Hrun; [|discriminate].
  destruct (Z.eqb_spec (Z.of_nat m * batchSize cfg) (itemCount cfg)) as [Hm|Hm];
    [|discriminate].
  injection Hrun as <- <-. cbn [w_store]. rewrite Hm.
  split. { unfold seeded. destruct (Z.eqb_spec (itemCount cfg) 0); [lia|reflexivity]. }
  split. { apply records_length. }
  split.
  { intros i Hi. rewrite records_lookup by lia. unfold payload, make_bytes.
    rewrite Hvs, Hks, uint64_id, PutUint64_digits by lia.
    split; [reflexivity|]. split; [reflexivity|].
    split; [apply key_of_length|apply key_of_value; lia]. }
  exists (Z.of_nat m). split; [lia|]. exact Hev.
Qed.

Lemma seed_complete_witness :
  wf_config scenario_config
  ∧ scenario_seed = (Val None, scenario_seed.1.2, scenario_seed.2)
  ∧ w_store scenario_seed.1.2 = {["root" := records scenario_config 100]}.
Proof.
  split; [exact scenario_config_wf|]. split; [vm_compute; reflexivity|].
  refine (proj1 (seed_complete example_size scenario_config [] scenario_seed.1.2
                   scenario_seed.2 scenario_config_wf _)).
  vm_compute; reflexivity.
Defined.

(** C6 (a failing batch ends the seeding).  When a transaction of a run of
    [seed] on the empty store fails with [e], the run returns [e] and that
    failure is its last event: some [m] batches were committed before it,
    then one more transaction was begun, put [j] records and gave up; no
    other transaction was begun, so the failed batch was not tried again
    and no later batch was tried.  The store holds what the [m] committed
    batches wrote, records [0 .. m*batchSize - 1], and nothing of the failed
    one. *)
Theorem seed_stops_at_failure tx_size cfg fs r w tr e :
  wf_config cfg ->
  seed tx_size cfg (World ∅ fs) = (r, w, tr) ->
  TxAbort e ∈ tr ->
  r = Val (Some e)
  ∧ last tr = Some (TxAbort e)
  ∧ ∃ (m : nat) j,
      Z.of_nat m * batchSize cfg < itemCount cfg ∧ 0 <= j <= batchSize cfg
      ∧ tx_events tr
        = concat ((fun i => TxBegin true
                            :: put_events cfg (i * batchSize cfg) (batchSize cfg)
                            ++ [TxCommit]) <$> seqZ 0 (Z.of_nat m))
          ++ TxBegin true :: put_events cfg (Z.of_nat m * batchSize cfg) j
          ++ [TxAbort e]
      ∧ w_store w = seeded cfg (Z.of_nat m * batchSize cfg).
Proof.
  intros Hwf Hrun Hin.
  apply (tx_events_elem (TxAbort e) _ eq_refl) in Hin.
  destruct (seed_events tx_size cfg Hwf fs)
    as (m & fs' & [(Hrange & t & Hseed & Hev)
                  |(Hlt & _ & e' & j & t & _ & Hj & Hseed & Hlast & Hev)]);
    rewrite Hseed in Hrun; injection Hrun as <- <- <-; rewrite Hev in Hin.
  - by apply batches_no_abort in Hin.
  - apply elem_of_app in Hin as [Hin|Hin]; [by apply batches_no_abort in Hin|].
    apply elem_of_cons in Hin as [Hin|Hin]; [discriminate|].
    apply elem_of_app in Hin as [Hin|Hin]; [by apply put_events_no_abort in Hin|].
    apply list_elem_of_singleton in Hin. injection Hin as ->.
    split; [done|]. split; [done|]. exists m, j. done.
Qed.

Lemma seed_stops_at_failure_witness :
  wf_config scenario_config
  ∧ TxAbort (EngineError 7) ∈ scenario_failed.2
  ∧ scenario_failed.1.1 = Val (Some (EngineError 7))
  ∧ last scenario_failed.2 = Some (TxAbort (EngineError 7)).
Proof.
  split; [exact scenario_config_wf|].
  assert (TxAbort (EngineError 7) ∈ scenario_failed.2) as Hin.
  { apply list_elem_of_In. vm_compute. repeat (first [left; reflexivity | right]). }
  split; [exact Hin|].
  assert (seed example_size scenario_config (World ∅ commit_faults)
          = (scenario_failed.1.1, scenario_failed.1.2, scenario_failed.2)) as Hrun.
  { vm_compute. reflexivity. }
  pose proof (seed_stops_at_failure example_size scenario_config commit_faults
                scenario_failed.1.1 scenario_failed.1.2 scenario_failed.2
                (EngineError 7) scenario_config_wf Hrun Hin) as (H1 & H2 & _).
  split; [exact H1|exact H2].
Defined.

(** C10 (the count check cannot fail).  For the constants of main.go,
    [batchSize] divides [itemCount].  So in every run of [seed], on any
    store and under any faults: the loop ends within its fuel; when every
    batch has gone through, the counter equals [itemCount]; [seed] never
    returns the "invalid insert count" error, never panics, and an error it
    returns is the error of a batch transaction that failed, the last event
    of the run.  With no fault at all it returns nil. *)
Theorem seed_count_check_unreachable tx_size s fs :
  (batchSize bench_config | itemCount bench_config)
  ∧ (∃ r w tr,
       seed_loop tx_size bench_config (Z.to_nat (itemCount bench_config)) 0 0 0
         (World s fs) = (Val r, w, tr)
       ∧ (r.1 = None -> r.2 = itemCount bench_config)
       ∧ (quiet fs -> r.1 = None))
  ∧ (∀ count want,
       (seed tx_size bench_config (World s fs)).1.1
       ≠ Val (Some (ErrInvalidCount count want)))
  ∧ (∃ w tr,
       seed tx_size bench_config (World s fs) = (Val None, w, tr)
       ∨ (¬ quiet fs
          ∧ ∃ e, is_tx_error e
                 ∧ seed tx_size bench_config (World s fs) = (Val (Some e), w, tr)
                 ∧ last tr = Some (TxAbort e))).
Proof.
  assert (batchSize bench_config | itemCount bench_config) as Hdiv.
  { exists 400. reflexivity. }
  split; [exact Hdiv|].
  split; [exact (seed_loop_count tx_size bench_config bench_config_wf s fs Hdiv)|].
  destruct (seed_outcomes tx_size bench_config bench_config_wf s fs Hdiv)
    as (w & tr & Hout).
  split; [|by exists w, tr].
  intros count want.
  destruct Hout as [->|(_ & e & (code & He) & -> & _)]; cbn [fst]; [discriminate|].
  intros [= ->]. destruct He as [He|[He|He]]; discriminate.
Qed.

(** ** The claims about the scan worker *)

Lemma logged_counts_passes count ps :
  logged_counts (concat (pass_events count <$> ps)) = replicate (length ps) count.
Proof.
  unfold logged_counts. induction ps as [|o ps IH]; [reflexivity|].
  cbn [fmap list_fmap concat pass_events app omap list_omap length replicate].
  f_equal. exact IH.
Qed.

Lemma iterate_logged_counts cfg script s fs recs :
  keySize cfg = 8 -> s !! "root" = Some recs ->
  logged_counts (iterate cfg script (World s fs)).2
  = replicate (length (passes script)) (scan_loop (key_of (iterate_bound cfg)) recs 0).
Proof.
  intros Hks H. rewrite (iterate_spec cfg Hks _ _ _ _ H). cbn zeta.
  destruct (existsb stop script); [|apply logged_counts_passes].
  destruct (int64_div _ _); cbn [snd]; [|apply logged_counts_passes].
  unfold logged_counts. rewrite omap_app. fold (logged_counts (concat (pass_events
    (scan_loop (key_of (iterate_bound cfg)) recs 0) <$> passes script))).
  rewrite logged_counts_passes. cbn [omap list_omap]. apply app_nil_r.
Qed.

Lemma iterate_bound_range cfg : 0 <= iterate_bound cfg < 2 ^ 64.
Proof. unfold iterate_bound, uint64. apply Z.mod_pos_bound. lia. Qed.

(** C2 (scan boundedness).  On the store a successful seeding leaves, every
    pass of a worker logs the same count, whatever the clock and the signal
    channel do: the number of keys of "root" strictly below [max], the key
    [PutUint64] writes for [itemCount * iteratePct] rounded down.  This is
    the smaller of that bound and [itemCount]: 800000 for the constants of
    main.go, 50 for the scenario of a hundred records and one half. *)
Theorem scan_count_deterministic tx_size cfg fs w tr script fs' :
  wf_config cfg ->
  seed tx_size cfg (World ∅ fs) = (Val None, w, tr) ->
  let bound := iterate_bound cfg in
  let count := Z.of_nat (keys_below (key_of bound) (contents (w_store w) "root")) in
  logged_counts (iterate cfg script (World (w_store w) fs')).2
  = replicate (length (passes script)) count
  ∧ PutUint64 (make_bytes (keySize cfg)) bound = Some (key_of bound)
  ∧ bound = Qround.Qfloor
              (QArith_base.Qmult (QArith_base.inject_Z (itemCount cfg)) (iteratePct cfg))
              mod 2 ^ 64
  ∧ count = Z.min bound (itemCount cfg)
  ∧ (cfg = bench_config -> bound = 800000 ∧ count = 800000)
  ∧ (cfg = scenario_config -> bound = 50 ∧ count = 50).
Proof.
  intros Hwf Hrun bound count. pose proof Hwf as (Hbs & Hic & Hmax & Hks & Hvs).
  destruct (seed_complete tx_size cfg fs w tr Hwf Hrun) as (Hstore & _).
  pose proof (iterate_bound_range cfg) as Hb. fold bound in Hb.
  destruct (scan_loop_records cfg bound (itemCount cfg)) as [Hscan Hbelow]; [lia|lia|].
  assert (count = Z.min bound (itemCount cfg)) as Hcount.
  { unfold count, contents. rewrite Hstore, lookup_singleton_eq. exact Hbelow. }
  split.
  { rewrite (iterate_logged_counts cfg script _ fs' (records cfg (itemCount cfg)) Hks)
      by (rewrite Hstore; apply lookup_singleton_eq).
    fold bound. rewrite Hscan, Hcount. reflexivity. }
  split. { rewrite Hks. apply PutUint64_digits. }
  split. { reflexivity. }
  split. { exact Hcount. }
  split; intros ->; rewrite Hcount; vm_compute; split; reflexivity.
Qed.

Lemma scan_count_deterministic_witness :
  wf_config scenario_config
  ∧ logged_counts
      (iterate scenario_config [tick1; tick3; tick2; tick1]
         (World (w_store scenario_seed.1.2) [])).2
    = [50; 50; 50].
Proof.
  split; [exact scenario_config_wf|].
  assert (seed example_size scenario_config (World ∅ [])
          = (Val None, scenario_seed.1.2, scenario_seed.2)) as Hrun.
  { vm_compute. reflexivity. }
  pose proof (scan_count_deterministic example_size scenario_config []
                scenario_seed.1.2 scenario_seed.2 [tick1; tick3; tick2; tick1] []
                scenario_config_wf Hrun) as (H & _ & _ & _ & _ & Hsc).
  rewrite H. destruct (Hsc eq_refl) as [_ ->]. reflexivity.
Defined.

Lemma wrap64_range z : - 2 ^ 63 <= wrap64 z < 2 ^ 63.
Proof.
  unfold wrap64. pose proof (Z.mod_pos_bound (z + 2 ^ 63) (2 ^ 64)). lia.
Qed.

Lemma quot_range d n :
  - 2 ^ 63 <= d < 2 ^ 63 -> 1 <= n -> - 2 ^ 63 <= Z.quot d n < 2 ^ 63.
Proof.
  intros Hd Hn. destruct (Z.le_gt_cases 0 d) as [Hpos|Hneg].
  - rewrite Z.quot_div_nonneg by lia.
    pose proof (Z.div_pos d n). pose proof (Z.div_le_upper_bound d n d).
    assert (d / n <= d) by (apply Z.div_le_upper_bound; nia). lia.
  - replace d with (- (- d)) by lia. rewrite Z.quot_opp_l by lia.
    rewrite Z.quot_div_nonneg by lia.
    pose proof (Z.div_pos (- d) n).
    assert (- d / n <= - d) by (apply Z.div_le_upper_bound; nia). lia.
Qed.

Section WorkerClaims.

Variable cfg : config.
Hypothesis Hwf : wf_config cfg.

(** The report of a worker whose loop ended. *)
Lemma iterate_report script s fs recs :
  s !! "root" = Some recs ->
  existsb stop script = true ->
  Z.of_nat (length script) < 2 ^ 63 ->
  let ps := passes script in
  let d := wrap64 (total_duration ps) in
  let n := Z.of_nat (length ps) in
  1 <= n ∧ accumulate 0 ps = d ∧ tally 0 ps = n
  ∧ int64_div d n = Some (Z.quot d n)
  ∧ iterate cfg script (World s fs)
    = (Val tt, World s fs,
       concat (pass_events (scan_loop (key_of (iterate_bound cfg)) recs 0) <$> ps)
       ++ [PrintAvg (Z.quot d n) n]).
Proof.
  intros H Hstop Hlen ps d n. pose proof Hwf as (_ & _ & _ & Hks & _).
  pose proof (passes_stopped script Hstop) as H1.
  pose proof (passes_length script) as H2. fold ps in H1, H2.
  assert (1 <= n) as Hn by (unfold n; lia).
  assert (accumulate 0 ps = d) as Hd.
  { unfold d. change 0 with (wrap64 0) at 1. rewrite accumulate_total. f_equal. }
  assert (tally 0 ps = n) as Ht.
  { rewrite tally_length by lia. unfold n. lia. }
  assert (int64_div d n = Some (Z.quot d n)) as Hdiv.
  { unfold int64_div. destruct (Z.eqb_spec n 0); [lia|].
    rewrite wrap64_id; [reflexivity|]. apply quot_range; [apply wrap64_range|lia]. }
  split; [done|]. split; [done|]. split; [done|]. split; [done|].
  rewrite (iterate_spec cfg Hks _ _ _ _ H). cbn zeta. rewrite Hstop.
  fold ps. rewrite Hd, Ht, Hdiv. reflexivity.
Qed.

End WorkerClaims.

(** C4 (the stop signal is polled between passes).  On a store that has a
    "root", the events of a worker are one block for each pass: the read
    transaction is begun and closed, the pass is logged, and only then the
    channel is polled.  Every poll but the last finds no token and is
    followed at once by the next pass; a poll that finds a token is followed
    by the report and nothing else, and the ticks after it are not looked
    at.  While no token has come the worker is still in its loop. *)
Theorem stop_polled_between_passes cfg script s fs recs :
  wf_config cfg ->
  s !! "root" = Some recs ->
  Z.of_nat (length script) < 2 ^ 63 ->
  let count := scan_loop (key_of (iterate_bound cfg)) recs 0 in
  let pass := fun o =>
    [TxBegin false; TxClose; LogIterate (since_log o) count; ChanPoll (stop o)] in
  ∃ pre,
    Forall (fun o => stop o = false) pre
    ∧ ((∃ o post avg n,
          stop o = true ∧ script = pre ++ o :: post
          ∧ iterate cfg script (World s fs)
            = (Val tt, World s fs,
               concat (pass <$> pre) ++ pass o ++ [PrintAvg avg n]))
       ∨ (script = pre
          ∧ iterate cfg script (World s fs)
            = (Spin, World s fs, concat (pass <$> pre)))).
Proof.
  intros Hwf H Hlen count pass. pose proof Hwf as (_ & _ & _ & Hks & _).
  destruct (passes_shape script)
    as (pre & Hpre & [(Hstop & o & post & Ho & Hps & Hscr)|(Hstop & Hps & Hscr)]);
    exists pre; (split; [exact Hpre|]).
  - left. exists o, post.
    destruct (iterate_report cfg Hwf script s fs recs H Hstop Hlen)
      as (_ & _ & _ & _ & Hrun).
    do 2 eexists. split; [exact Ho|]. split; [exact Hscr|].
    rewrite Hrun, Hps, fmap_app, concat_app. cbn [fmap list_fmap concat].
    rewrite app_nil_r, <- app_assoc. reflexivity.
  - right. split; [exact Hscr|].
    rewrite (iterate_spec cfg Hks _ _ _ _ H). cbn zeta. rewrite Hstop, Hps. reflexivity.
Qed.

Lemma stop_polled_between_passes_witness :
  wf_config scenario_config
  ∧ scenario_store !! "root" = Some (records scenario_config 100)
  ∧ ∃ pre,
      Forall (fun o => stop o = false) pre
      ∧ ((∃ o post avg n,
            stop o = true ∧ [tick1; tick3; tick2; tick1] = pre ++ o :: post
            ∧ iterate scenario_config [tick1; tick3; tick2; tick1] (World scenario_store [])
              = (Val tt, World scenario_store [],
                 concat ((fun o => [TxBegin false; TxClose; LogIterate (since_log o) 50;
                                    ChanPoll (stop o)]) <$> pre)
                 ++ [TxBegin false; TxClose; LogIterate (since_log o) 50; ChanPoll (stop o)]
                 ++ [PrintAvg avg n]))
         ∨ ([tick1; tick3; tick2; tick1] = pre
            ∧ iterate scenario_config [tick1; tick3; tick2; tick1] (World scenario_store [])
              = (Spin, World scenario_store [],
                 concat ((fun o => [TxBegin false; TxClose; LogIterate (since_log o) 50;
                                    ChanPoll (stop o)]) <$> pre)))).
Proof.
  split; [exact scenario_config_wf|]. split; [reflexivity|].
  exact (stop_polled_between_passes scenario_config [tick1; tick3; tick2; tick1]
           scenario_store [] (records scenario_config 100)
           scenario_config_wf eq_refl ltac:(simpl; lia)).
Defined.

(** C5 (the average).  When the loop of a worker on a store with a "root"
    ends, the worker has made [n] passes, as many as the signal channel was
    polled, and [n] is at least 1; [d] holds the sum of the durations added
    pass by pass (as an int64); the division [d / n] does not panic and the
    last line reports its quotient, truncated towards zero, with [n].  The
    number of passes is taken to fit an [int]. *)
Theorem average_over_passes cfg script s fs recs :
  wf_config cfg ->
  s !! "root" = Some recs ->
  existsb stop script = true ->
  Z.of_nat (length script) < 2 ^ 63 ->
  let ps := passes script in
  let d := wrap64 (total_duration ps) in
  let n := Z.of_nat (length ps) in
  1 <= n
  ∧ accumulate 0 ps = d ∧ tally 0 ps = n
  ∧ (- 2 ^ 63 <= total_duration ps < 2 ^ 63 -> d = total_duration ps)
  ∧ int64_div d n = Some (Z.quot d n)
  ∧ (iterate cfg script (World s fs)).1.1 = Val tt
  ∧ last (iterate cfg script (World s fs)).2 = Some (PrintAvg (Z.quot d n) n)
  ∧ length (filter is_poll (iterate cfg script (World s fs)).2) = length ps.
Proof.
  intros Hwf H Hstop Hlen ps d n.
  destruct (iterate_report cfg Hwf script s fs recs H Hstop Hlen)
    as (Hn & Hd & Ht & Hdiv & Hrun).
  fold ps d n in Hn, Hd, Ht, Hdiv, Hrun.
  split; [done|]. split; [done|]. split; [done|].
  split; [intros Hr; apply wrap64_id, Hr|]. split; [done|].
  rewrite Hrun. cbn [fst snd]. split; [done|]. split; [apply last_snoc|].
  rewrite filter_app, length_app.
  rewrite (filter_cons_False _ (PrintAvg _ _)) by (cbn; tauto).
  cbn [filter list_filter length]. rewrite Nat.add_0_r.
  clear. induction ps as [|o ps IH]; [reflexivity|].
  cbn [fmap list_fmap concat pass_events app].
  rewrite !filter_cons_False by (cbn; tauto).
  rewrite filter_cons_True by done. cbn [length]. f_equal. exact IH.
Qed.

Lemma average_over_passes_witness :
  wf_config scenario_config
  ∧ existsb stop [tick1; tick3; tick2; tick1] = true
  ∧ last (iterate scenario_config [tick1; tick3; tick2; tick1] (World scenario_store [])).2
    = Some (PrintAvg 5 3).
Proof.
  split; [exact scenario_config_wf|]. split; [reflexivity|].
  pose proof (average_over_passes scenario_config [tick1; tick3; tick2; tick1]
                scenario_store [] (records scenario_config 100)
                scenario_config_wf eq_refl eq_refl ltac:(simpl; lia))
    as (_ & _ & _ & _ & _ & _ & Hlast & _).
  exact Hlast.
Defined.

(** C9 (a worker needs the "root" bucket).  On a store without a "root",
    the first pass of a worker panics on the nil bucket inside its read
    transaction: no count is logged, no error is returned, nothing is
    reported, and the process dies with the worker.  [main] does not guard
    against it: on a store file that exists it does not seed, and [stat]
    succeeds, so it goes on to start the workers. *)
Theorem scan_without_root_panics s fs o script :
  s !! "root" = None ->
  iterate bench_config (o :: script) (World s fs)
  = (Panic nil_deref, World s fs, [TxBegin false])
  ∧ (∀ main parked ws out i wk sl sa,
       ws !! i = Some wk -> wk_pc wk = WLoop ->
       sched_step bench_config (Proc main parked ws (World s fs) out Running)
         (AWorker i sl sa)
       = Proc main parked ws (World s fs) (out ++ [TxBegin false]) (Crashed nil_deref))
  ∧ (∀ tx_size path files faults,
       path ≠ "" -> files !! path = Some s -> next_fault faults = None ->
       main_init tx_size bench_config path files faults
       = (Val None, files, tail faults,
          [TxBegin false; PrintSize (tx_size s); Print ""; TxClose])).
Proof.
  intros H. split; [exact (iterate_nil bench_config eq_refl o script s fs H)|]. split.
  - intros main parked ws out i wk sl sa Hi Hpc.
    unfold sched_step, worker_step. cbn [p_status p_workers p_world p_main p_parked p_out].
    rewrite Hi, Hpc. unfold worker_pass.
    change (keySize bench_config) with 8. rewrite PutUint64_digits.
    rewrite (iteration_run_nil _ _ _ _ _ _ H). reflexivity.
  - intros tx_size path files faults Hpath Hfile Hopen. unfold main_init.
    rewrite bool_decide_eq_false_2 by done.
    rewrite Open_ok by done. rewrite Hfile. cbn [default from_option id].
    rewrite bool_decide_eq_false_2 by done.
    rewrite main_opened_old. cbn [w_store w_faults].
    rewrite insert_id by done. reflexivity.
Qed.

Lemma scan_without_root_panics_witness :
  (∅ : store) !! "root" = None
  ∧ iterate bench_config [tick1] (World ∅ [])
    = (Panic nil_deref, World ∅ [], [TxBegin false]).
Proof.
  split; [reflexivity|].
  exact (proj1 (scan_without_root_panics ∅ [] tick1 [] eq_refl)).
Defined.

(** ** The claims about main *)

(** C8 (the copy).  [dbcopy] begins one read transaction and no other.
    When [Copy] succeeds, the whole store went through it, the transaction
    is closed, the duration is printed and nil is returned; [main] goes on.
    When [Copy] fails, the transaction is closed, [dbcopy] returns the
    engine's error as it is and prints no duration; [main] logs that very
    error and the process exits with status 1, without a second attempt. *)
Theorem dbcopy_single_transaction elapsed s fs rest ws out :
  dbcopy elapsed (World s fs)
  = match next_fault fs with
    | Some code =>
        (Val (Some (EngineError code)), World s (tail fs), [TxBegin false; TxClose])
    | None =>
        (Val None, World s (tail fs),
         [TxBegin false; TxCopy s; TxClose; PrintCopy elapsed])
    end
  ∧ main_step elapsed (Proc (ICopy :: rest) false ws (World s fs) out Running)
    = match next_fault fs with
      | Some code =>
          Proc rest false ws (World s (tail fs))
               (out ++ [TxBegin false; TxClose; LogFatal (EngineError code)])
               (Exited 1)
      | None =>
          Proc rest false ws (World s (tail fs))
               (out ++ [TxBegin false; TxCopy s; TxClose; PrintCopy elapsed])
               Running
      end.
Proof.
  split; [apply dbcopy_spec|].
  unfold main_step. cbn [p_main p_world p_workers p_out].
  rewrite main_dbcopy_spec. destruct (next_fault fs); reflexivity.
Qed.

Lemma main_opened_new_ok tx_size cfg w w' t :
  main_opened tx_size cfg true w = (Val None, w', t) ->
  ∃ t1, seed tx_size cfg w = (Val None, w', t1).
Proof.
  unfold main_opened, fatal_on. rewrite run_bind.
  destruct (seed tx_size cfg w) as [[[[e|]|msg|] [s1 fs1]] t1]; try discriminate.
  run. rewrite stat_spec. run. intros [= <- <-]. eauto.
Qed.

(** C7 (seeding only for a new file).  In a run that gets to open the
    store, [seed] is started exactly when there was no file at the path.
    After a first run on a new file that got through its seeding, the file
    holds the [itemCount] records; the phases of that run only read it; a
    second run on it starts no seeding, goes through [stat] to the phases
    and leaves the file as it was. *)
Theorem seeding_only_for_new_file tx_size cfg path files faults r files1 faults1 t1 :
  wf_config cfg ->
  path ≠ "" ->
  next_fault faults = None ->
  main_init tx_size cfg path files faults = (r, files1, faults1, t1) ->
  (Print "seeding" ∈ t1 ↔ files !! path = None)
  ∧ (files !! path = None -> r = Val None ->
     let s1 := {["root" := records cfg (itemCount cfg)]} in
     files1 !! path = Some s1
     ∧ length (contents s1 "root") = Z.to_nat (itemCount cfg)
     ∧ (∀ sched, w_store (p_world (exec cfg sched (boot (World s1 faults1)))) = s1)
     ∧ ∀ faults2,
         next_fault faults2 = None ->
         main_init tx_size cfg path files1 faults2
         = (Val None, files1, tail faults2,
            [TxBegin false; PrintSize (tx_size s1); Print ""; TxClose])
         ∧ Print "seeding" ∉ [TxBegin false; PrintSize (tx_size s1); Print ""; TxClose]).
Proof.
  intros Hwf Hpath Hopen Hrun. unfold main_init in Hrun.
  rewrite bool_decide_eq_false_2 in Hrun by done.
  rewrite Open_ok in Hrun by done.
  destruct (files !! path) as [s|] eqn:Hfile.
  - rewrite bool_decide_eq_false_2 in Hrun by done.
    cbn [default from_option id] in Hrun. rewrite main_opened_old in Hrun.
    injection Hrun as <- <- <- <-. split; [|discriminate].
    split; [|discriminate]. intros Hin.
    repeat (apply elem_of_cons in Hin as [Hin|Hin]; [discriminate|]).
    by apply elem_of_nil in Hin.
  - rewrite bool_decide_eq_true_2 in Hrun by done.
    cbn [default from_option id] in Hrun.
    destruct (main_opened_new tx_size cfg (World ∅ (tail faults))) as (r0 & w0 & t0 & Hnew).
    rewrite Hnew in Hrun. injection Hrun as <- <- <- <-.
    split; [split; [done|intros _; apply elem_of_cons; by left]|].
    intros _ ->. apply main_opened_new_ok in Hnew as [t Hseed].
    destruct (seed_complete tx_size cfg _ _ _ Hwf Hseed) as (Hstore & Hlen & _).
    rewrite Hstore. cbn zeta.
    split; [apply lookup_insert_eq|].
    split; [unfold contents; rewrite lookup_singleton_eq; exact Hlen|].
    split; [intros sched; apply exec_store|].
    intros faults2 Hopen2. split.
    + unfold main_init. rewrite bool_decide_eq_false_2 by done.
      rewrite Open_ok by done. rewrite lookup_insert_eq.
      rewrite bool_decide_eq_false_2 by done.
      cbn [default from_option id]. rewrite main_opened_old. cbn [w_store w_faults].
      rewrite insert_insert_eq. reflexivity.
    + intros Hin.
      repeat (apply elem_of_cons in Hin as [Hin|Hin]; [discriminate|]).
      by apply elem_of_nil in Hin.
Qed.

Lemma seeding_only_for_new_file_witness :
  wf_config scenario_config
  ∧ scenario_boot.1.1.1 = Val None
  ∧ scenario_boot.1.1.2 !! "bench.db" = Some scenario_store
  ∧ main_init example_size scenario_config "bench.db" scenario_boot.1.1.2 []
    = (Val None, scenario_boot.1.1.2, [],
       [TxBegin false; PrintSize 4096; Print ""; TxClose]).
Proof.
  split; [exact scenario_config_wf|].
  assert (scenario_boot.1.1.1 = Val None) as Hr by (vm_compute; reflexivity).
  split; [exact Hr|].
  assert (main_init example_size scenario_config "bench.db" ∅ []
          = (scenario_boot.1.1.1, scenario_boot.1.1.2, scenario_boot.1.2, scenario_boot.2))
    as Hrun by (vm_compute; reflexivity).
  destruct (seeding_only_for_new_file example_size scenario_config "bench.db" ∅ []
              _ _ _ _ scenario_config_wf ltac:(discriminate) eq_refl Hrun)
    as (_ & Hnew).
  destruct (Hnew eq_refl Hr) as (Hfile & _ & _ & Hagain).
  split; [exact Hfile|]. exact (proj1 (Hagain [] eq_refl)).
Defined.

(** ** The claim about the hand-off between workers *)

(** C3, as it is stated, fails: after [handoff_schedule] the first worker
    is out of its loop and has not printed its average, and the next step
    of [main] starts the second worker. *)
Lemma handoff_counterexample :
  (let p := exec bench_config handoff_schedule (boot (World store3 [])) in
   p_workers p = [Worker WExit 11 1]
   ∧ p_workers (sched_step bench_config p (AMain 0))
     = [Worker WExit 11 1; Worker WLoop 0 0]
   ∧ p_out (sched_step bench_config p (AMain 0))
     = [Print "first run (ignore)"; TxBegin false; TxClose; LogIterate 10 3;
        ChanPoll true; Print ""; Print "iterate only"])
  ∧ ¬ starts_after_report bench_config (World store3 []).
Proof.
  split; [vm_compute; done|].
  intros H. specialize (H handoff_schedule (AMain 0)).
  assert (length (p_workers (exec bench_config handoff_schedule (boot (World store3 []))))
          < length (p_workers (sched_step bench_config
                                 (exec bench_config handoff_schedule
                                    (boot (World store3 []))) (AMain 0))))%nat as Hlt.
  { vm_compute. lia. }
  apply H in Hlt. vm_compute in Hlt. inversion Hlt as [|wk ws Hpc _]. discriminate.
Qed.

(** C3, amended.  At every point of every run at most one worker is in its
    loop, so at most one polls the signal channel.  When [main] starts a
    worker, every worker started before has taken its token and left its
    loop (it may still have its average to print), and the new worker is
    the only one in its loop. *)
Theorem handoff_exclusive cfg w sched a :
  let p := exec cfg sched (boot w) in
  (live_count (p_workers p) <= 1)%nat
  ∧ ((length (p_workers p) < length (p_workers (sched_step cfg p a)))%nat ->
     Forall (fun wk => wk_pc wk = WExit ∨ wk_pc wk = WDone) (p_workers p)
     ∧ live_count (p_workers (sched_step cfg p a)) = 1%nat).
Proof.
  intros p.
  destruct (phase_inv_exec cfg sched (boot w) (phase_inv_boot w))
    as (live & Hwp & Hcnt & _).
  fold p in Hwp, Hcnt. split.
  - rewrite Hcnt. destruct live; cbn; lia.
  - intros Hlt. destruct (spawn_is_go cfg p a Hlt) as (rest & Hmain & Hws).
    rewrite Hmain in Hwp. cbn [wellphased] in Hwp.
    apply andb_prop in Hwp as [Hl _]. destruct live; [discriminate|].
    split; [by apply live_count_zero|].
    rewrite Hws, live_count_app, Hcnt. reflexivity.
Qed.

Lemma handoff_exclusive_witness :
  (let p := exec bench_config handoff_schedule (boot (World store3 [])) in
   (length (p_workers p) < length (p_workers (sched_step bench_config p (AMain 0))))%nat
   ∧ Forall (fun wk => wk_pc wk = WExit ∨ wk_pc wk = WDone) (p_workers p)).
Proof.
  cbn zeta.
  assert (length (p_workers (exec bench_config handoff_schedule (boot (World store3 []))))
          < length (p_workers (sched_step bench_config
                                 (exec bench_config handoff_schedule
                                    (boot (World store3 []))) (AMain 0))))%nat as Hlt.
  { vm_compute. lia. }
  split; [exact Hlt|].
  exact (proj1 (proj2 (handoff_exclusive bench_config (World store3 [])
                         handoff_schedule (AMain 0)) Hlt)).
Defined.

(** * Further properties of the code *)

(** ** Keys and the scan *)

Lemma bytes_Compare_trans a b c :
  bytes_Compare a b = -1 -> bytes_Compare b c = -1 -> bytes_Compare a c = -1.
Proof.
  revert b c. induction a as [|x a IH]; intros [|y b] [|z c]; cbn [bytes_Compare];
    try done.
  destruct (Z.ltb_spec (byte_val x) (byte_val y)) as [Hxy|Hxy].
  - intros _.
    destruct (Z.ltb_spec (byte_val y) (byte_val z)) as [Hyz|Hyz].
    + intros _. destruct (Z.ltb_spec (byte_val x) (byte_val z)); [done|lia].
    + destruct (Z.ltb_spec (byte_val z) (byte_val y)); [done|].
      intros _. destruct (Z.ltb_spec (byte_val x) (byte_val z)); [done|lia].
  - destruct (Z.ltb_spec (byte_val y) (byte_val x)); [done|].
    intros Hab.
    destruct (Z.ltb_spec (byte_val y) (byte_val z)) as [Hyz|Hyz].
    + intros _. destruct (Z.ltb_spec (byte_val x) (byte_val z)); [done|lia].
    + destruct (Z.ltb_spec (byte_val z) (byte_val y)); [done|].
      intros Hbc. destruct (Z.ltb_spec (byte_val x) (byte_val z)); [done|].
      destruct (Z.ltb_spec (byte_val z) (byte_val x)); [lia|].
      by apply (IH b c).
Qed.

(** Once the scan meets a key that is not below the bound, no later key of
    a sorted bucket is. *)
Lemma keys_below_none max k (recs : bucket) :
  bytes_Compare k max ≠ -1 ->
  Forall (fun kv => bytes_Compare k kv.1 = -1) recs ->
  keys_below max recs = 0%nat.
Proof.
  intros Hk. unfold keys_below. induction 1 as [|[k' v'] recs Hk' _ IH]; [reflexivity|].
  rewrite filter_cons_False; [exact IH|].
  cbn [fst] in *. intros Hlt. apply Hk. by apply (bytes_Compare_trans k k' max).
Qed.

Lemma scan_loop_sorted max (recs : bucket) cnt :
  bucket_sorted recs ->
  0 <= cnt -> cnt + Z.of_nat (length recs) < 2 ^ 63 ->
  scan_loop max recs cnt = cnt + Z.of_nat (keys_below max recs).
Proof.
  revert cnt. induction recs as [|[k v] recs IH]; intros cnt Hs Hc Hlen.
  - cbn. lia.
  - destruct Hs as [Hk Hs]. cbn [fst] in Hk.
    cbn [scan_loop length] in *. unfold keys_below in *.
    destruct (Z.eqb_spec (bytes_Compare k max) (-1)) as [Hlt|Hge].
    + rewrite filter_cons_True by done. rewrite wrap64_id by lia.
      rewrite IH by (done || lia). cbn [length]. lia.
    + rewrite filter_cons_False by done.
      fold (keys_below max recs). rewrite (keys_below_none max k recs Hge Hk). lia.
Qed.

(** X1 (keys keep the order of the counters).  The keys [seed] and
    [iterate] build with [PutUint64] on a fresh eight-byte slice are eight
    bytes long, read back big-endian as the counter, differ for different
    counters, and [bytes.Compare] orders them as the counters are ordered:
    this is what lets the byte comparison of the scan stand for a numeric
    bound. *)
Theorem keys_keep_counter_order a b :
  0 <= a < 2 ^ 64 -> 0 <= b < 2 ^ 64 ->
  ∃ ka kb,
    PutUint64 (make_bytes 8) (uint64 a) = Some ka
    ∧ PutUint64 (make_bytes 8) (uint64 b) = Some kb
    ∧ length ka = 8%nat ∧ be_value ka = a
    ∧ bytes_Compare ka kb = cmp_sign (a ?= b)
    ∧ (ka = kb ↔ a = b).
Proof.
  intros Ha Hb. exists (key_of a), (key_of b).
  rewrite !uint64_id, !PutUint64_digits by lia.
  split; [reflexivity|]. split; [reflexivity|].
  split; [apply key_of_length|]. split; [by apply key_of_value|].
  split; [by apply key_of_Compare|].
  split; [by apply key_of_inj|by intros ->].
Qed.

Lemma keys_keep_counter_order_witness :
  ∃ ka kb,
    PutUint64 (make_bytes 8) (uint64 255) = Some ka
    ∧ PutUint64 (make_bytes 8) (uint64 256) = Some kb
    ∧ bytes_Compare ka kb = -1.
Proof.
  destruct (keys_keep_counter_order 255 256 ltac:(lia) ltac:(lia))
    as (ka & kb & Ha & Hb & _ & _ & Hcmp & _).
  exists ka, kb. split; [exact Ha|]. split; [exact Hb|]. exact Hcmp.
Defined.

(** X2 (the scan on any sorted bucket).  The loop of a pass stops at the
    first key that is not below [max]; on a bucket whose keys ascend, as a
    cursor yields them, what it has counted by then is the number of all
    keys below [max], and never more than the bucket holds. *)
Theorem scan_counts_keys_below max (recs : bucket) :
  bucket_sorted recs ->
  Z.of_nat (length recs) < 2 ^ 63 ->
  scan_loop max recs 0 = Z.of_nat (keys_below max recs)
  ∧ 0 <= scan_loop max recs 0 <= Z.of_nat (length recs).
Proof.
  intros Hs Hlen. rewrite scan_loop_sorted by (done || lia).
  split; [lia|]. unfold keys_below.
  pose proof (length_filter (fun kv : list byte * list byte =>
                               bytes_Compare kv.1 max = -1) recs). lia.
Qed.

Lemma scan_counts_keys_below_witness :
  bucket_sorted (records scenario_config 4)
  ∧ scan_loop (key_of 2) (records scenario_config 4) 0 = 2.
Proof.
  assert (bucket_sorted (records scenario_config 4)) as Hs.
  { vm_compute. repeat constructor. }
  split; [exact Hs|].
  destruct (scan_counts_keys_below (key_of 2) (records scenario_config 4) Hs
              ltac:(vm_compute; reflexivity)) as [-> _].
  vm_compute. reflexivity.
Defined.

(** ** More about seeding *)

Lemma bytes_Compare_refl a : bytes_Compare a a = 0.
Proof.
  induction a as [|x a IH]; [reflexivity|]. cbn [bytes_Compare].
  rewrite Z.ltb_irrefl. exact IH.
Qed.

(** A put on a key the bucket has, all keys before it being smaller, takes
    the place of the old record. *)
Lemma bucket_put_mid k v v' (pre post : bucket) :
  Forall (fun kv => bytes_Compare k kv.1 = 1) pre ->
  bucket_put k v (pre ++ (k, v') :: post) = pre ++ (k, v) :: post.
Proof.
  induction 1 as [|[k0 v0] pre Hk _ IH]; cbn [app bucket_put].
  - rewrite bytes_Compare_refl. reflexivity.
  - cbn [fst] in Hk. rewrite Hk. cbn. rewrite IH. reflexivity.
Qed.

Lemma records_split cfg i m :
  0 <= i < m ->
  records cfg m
  = records cfg i ++ (key_of i, payload cfg)
    :: ((fun j => (key_of j, payload cfg)) <$> seqZ (i + 1) (m - i - 1)).
Proof.
  intros H. unfold records.
  replace m with (i + (m - i)) at 1 by lia.
  rewrite seqZ_app, fmap_app by lia. f_equal.
  rewrite (seqZ_cons (0 + i)) by lia. cbn [fmap list_fmap].
  rewrite Z.add_0_l. do 2 f_equal; lia.
Qed.

Lemma bucket_put_records_again cfg i m :
  0 <= i < m -> m <= 2 ^ 64 ->
  bucket_put (key_of i) (payload cfg) (records cfg m) = records cfg m.
Proof.
  intros Hi Hm. rewrite (records_split cfg i m Hi). apply bucket_put_mid.
  unfold records. apply Forall_fmap, Forall_seqZ. intros j Hj.
  unfold compose. cbn [fst]. rewrite key_of_Compare by lia.
  assert ((i ?= j) = Gt) as -> by (apply Z.compare_gt_iff; lia). reflexivity.
Qed.

Lemma put_range_records_again cfg n c (j : nat) :
  0 <= c -> c + Z.of_nat j <= n -> n <= 2 ^ 64 ->
  put_range cfg {["root" := records cfg n]} c (Z.of_nat j)
  = {["root" := records cfg n]}.
Proof.
  revert c. induction j as [|j IH]; intros c Hc Hj Hn.
  - reflexivity.
  - rewrite put_range_cons by lia.
    replace (Z.of_nat (S j) - 1) with (Z.of_nat j) by lia.
    unfold put_record at 1, contents. rewrite lookup_singleton_eq.
    rewrite insert_singleton_eq, bucket_put_records_again by lia.
    apply IH; lia.
Qed.

Lemma logged_rows_app t1 t2 : logged_rows (t1 ++ t2) = logged_rows t1 ++ logged_rows t2.
Proof. apply omap_app. Qed.

Lemma logged_rows_put_events cfg c j : logged_rows (put_events cfg c j) = [].
Proof.
  unfold put_events, logged_rows. induction (seqZ c j) as [|i l IH]; [reflexivity|].
  cbn [fmap list_fmap omap list_omap]. exact IH.
Qed.

Lemma commits_app t1 t2 : commits (t1 ++ t2) = (commits t1 + commits t2)%nat.
Proof. unfold commits. rewrite filter_app, length_app. reflexivity. Qed.

Lemma commits_put_events cfg c j : commits (put_events cfg c j) = 0%nat.
Proof.
  unfold put_events, commits. induction (seqZ c j) as [|i l IH]; [reflexivity|].
  cbn [fmap list_fmap]. rewrite filter_cons_False by (cbn; tauto). exact IH.
Qed.

Section MoreSeedProofs.

Variable tx_size : store -> Z.
Variable cfg : config.
Hypothesis Hwf : wf_config cfg.

Lemma batches_store_again n c m :
  0 <= c -> c + Z.of_nat m * batchSize cfg <= n -> n <= 2 ^ 63 -> 0 < n ->
  batches_store cfg {["root" := records cfg n]} c m = {["root" := records cfg n]}.
Proof.
  destruct Hwf as (Hbs & _).
  revert c. induction m as [|m IH]; intros c Hc Hm Hn Hpos; [reflexivity|].
  cbn [batches_store]. unfold batch_store, create_root.
  rewrite lookup_singleton_eq.
  rewrite <- (Z2Nat.id (batchSize cfg)) at 1 by lia.
  rewrite put_range_records_again by lia.
  apply IH; lia.
Qed.

Lemma batches_trace_rows s c m :
  logged_rows (batches_trace tx_size cfg s c m)
  = (fun i => c + (i + 1) * batchSize cfg) <$> seqZ 0 (Z.of_nat m).
Proof.
  revert s c. induction m as [|m IH]; intros s c; [reflexivity|].
  cbn [batches_trace]. unfold batch_events.
  change (TxBegin true :: ?l) with ([TxBegin true] ++ l).
  change (LogRows ?a ?b :: ?l) with ([LogRows a b] ++ l).
  rewrite !logged_rows_app, logged_rows_put_events, IH.
  rewrite (seqZ_cons 0 (Z.of_nat (S m))) by lia.
  cbn [fmap list_fmap app logged_rows omap list_omap].
  f_equal; [lia|].
  replace (Z.pred (Z.of_nat (S m))) with (Z.of_nat m) by lia.
  rewrite <- (fmap_add_seqZ 1 0), <- list_fmap_compose.
  apply list_fmap_ext. intros _ i _. cbn. lia.
Qed.

Lemma batches_trace_commits s c m : commits (batches_trace tx_size cfg s c m) = m.
Proof.
  revert s c. induction m as [|m IH]; intros s c; [reflexivity|].
  cbn [batches_trace]. unfold batch_events.
  change (TxBegin true :: ?l) with ([TxBegin true] ++ l).
  change (LogRows ?a ?b :: ?l) with ([LogRows a b] ++ l).
  rewrite !commits_app, commits_put_events, IH. reflexivity.
Qed.

End MoreSeedProofs.



Lemma seed_batch_empty tx_size cfg c size s fs :
  batchSize cfg = 0 -> next_fault fs = None ->
  seed_batch tx_size cfg c size (World s fs)
  = (Val (None, (c, tx_size (create_root s))), World (create_root s) (tail fs), []).
Proof.
  intros Hbs Hf. unfold seed_batch. rewrite run_bind, run_Create, Hf, Hbs.
  fold (create_root s). cbn [Z.to_nat seed_puts]. run. reflexivity.
Qed.

Lemma seed_loop_stuck tx_size cfg fuel size s fs :
  batchSize cfg = 0 -> 0 < itemCount cfg -> quiet fs ->
  ∃ w tr, seed_loop tx_size cfg fuel 0 0 size (World s fs) = (Spin, w, tr).
Proof.
  intros Hbs Hic. revert size s fs.
  induction fuel as [|fuel IH]; intros size s fs Hq; cbn [seed_loop];
    destruct (Z.ltb_spec 0 (itemCount cfg)) as [_|?]; try lia.
  - eauto.
  - rewrite run_bind, run_Update, seed_batch_empty by (done || by apply quiet_next).
    cbn [w_faults w_store]. rewrite (quiet_next (tail fs)) by by apply quiet_tail.
    run. rewrite Hbs. change (wrap64 (0 + 0)) with 0.
    destruct (IH (tx_size (create_root s)) (create_root s) (tail (tail fs)))
      as (w & tr & ->); [by do 2 apply quiet_tail|].
    eauto.
Qed.

(** X4 (empty batches never end).  With a batch size of zero the loop of
    [seed] makes no progress: every round commits an empty transaction,
    [i] stays 0, and the loop is still running after any number of rounds,
    unless the engine fails. *)
Theorem seed_zero_batch_spins tx_size cfg fuel size s fs :
  batchSize cfg = 0 -> 0 < itemCount cfg -> quiet fs ->
  (seed_loop tx_size cfg fuel 0 0 size (World s fs)).1.1 = Spin
  ∧ (seed tx_size cfg (World s fs)).1.1 = Spin.
Proof.
  intros Hbs Hic Hq. split.
  - destruct (seed_loop_stuck tx_size cfg fuel size s fs Hbs Hic Hq) as (w & tr & ->).
    reflexivity.
  - unfold seed. run.
    destruct (seed_loop_stuck tx_size cfg (Z.to_nat (itemCount cfg)) 0 s fs Hbs Hic Hq)
      as (w & tr & ->).
    reflexivity.
Qed.

Lemma seed_zero_batch_spins_witness :
  quiet []
  ∧ (seed_loop example_size stuck_config 5 0 0 0 (World ∅ [])).1.1 = Spin.
Proof.
  assert (quiet []) as Hq by constructor.
  split; [exact Hq|].
  exact (proj1 (seed_zero_batch_spins example_size stuck_config 5 0 ∅ []
                  eq_refl ltac:(reflexivity) Hq)).
Defined.

(** X5 (what the count check catches).  When the batch size does not divide
    the item count and no engine call fails, [seed] on the empty store puts
    whole batches until the range is covered, more than [itemCount] records,
    commits them all and logs "(done)"; only then it returns the "invalid
    insert count" error, and the records stay in the store. *)
Theorem seed_count_mismatch tx_size cfg fs :
  wf_config cfg -> ¬ (batchSize cfg | itemCount cfg) -> quiet fs ->
  ∃ c w tr,
    seed tx_size cfg (World ∅ fs) = (Val (Some (ErrInvalidCount c (itemCount cfg))), w, tr)
    ∧ itemCount cfg < c < itemCount cfg + batchSize cfg
    ∧ c = Z.of_nat (commits tr) * batchSize cfg
    ∧ w_store w = {["root" := records cfg c]}
    ∧ length (records cfg c) = Z.to_nat c
    ∧ last tr = Some (Print "").
Proof.
  intros Hwf Hdiv Hq. pose proof Hwf as (Hbs & Hic & Hmax & _).
  destruct (seed_spec tx_size cfg Hwf ∅ fs)
    as (m & fs' & [(Hrange & Hrun)|(_ & Hnq & _)]); [|done].
  destruct (Z.eqb_spec (Z.of_nat m * batchSize cfg) (itemCount cfg)) as [He|Hne].
  { destruct Hdiv. exists (Z.of_nat m). lia. }
  do 3 eexists. split; [exact Hrun|]. split; [lia|]. split.
  { change (Print "seeding" :: ?l) with ([Print "seeding"] ++ l).
    rewrite !commits_app, batches_trace_commits.
    change (commits [Print "seeding"]) with 0%nat.
    change (commits [Print "(done)"; Print ""]) with 0%nat. lia. }
  split.
  { cbn [w_store]. change (∅ : store) with (seeded cfg 0).
    rewrite (batches_store_seeded cfg Hwf) by lia. rewrite Z.add_0_l.
    unfold seeded. destruct (Z.eqb_spec (Z.of_nat m * batchSize cfg) 0); [lia|reflexivity]. }
  split; [apply records_length|].
  change (Print "seeding" :: ?l) with ([Print "seeding"] ++ l).
  change [Print "(done)"; Print ""] with ([Print "(done)"] ++ [Print ""]).
  rewrite !app_assoc. apply last_snoc.
Qed.

Lemma seed_count_mismatch_witness :
  wf_config ragged_config ∧ ¬ (batchSize ragged_config | itemCount ragged_config)
  ∧ quiet []
  ∧ (seed example_size ragged_config (World ∅ [])).1.1
    = Val (Some (ErrInvalidCount 120 100)).
Proof.
  assert (wf_config ragged_config) as Hwf by (unfold wf_config; cbn; lia).
  assert (¬ (batchSize ragged_config | itemCount ragged_config)) as Hdiv.
  { intros [q Hq]. cbn in Hq. lia. }
  assert (quiet []) as Hq by constructor.
  split; [exact Hwf|]. split; [exact Hdiv|]. split; [exact Hq|].
  destruct (seed_count_mismatch example_size ragged_config [] Hwf Hdiv Hq)
    as (c & w & tr & Hrun & Hc & _).
  assert (c = 120) as ->.
  { pose proof (f_equal (fun x => x.1.1) Hrun) as H1. cbn [fst] in H1.
    vm_compute in H1. injection H1 as <-. reflexivity. }
  rewrite Hrun. reflexivity.
Defined.

(** X6 (seeding again changes nothing).  [seed] counts its puts, not the
    records of the bucket: run on a store that already holds the
    [itemCount] records, with no engine failure, it overwrites each record
    with itself in the same batches, passes its count check and returns
    nil, and the store is the same as before. *)
Theorem seed_again_changes_nothing tx_size cfg fs :
  wf_config cfg -> (batchSize cfg | itemCount cfg) -> quiet fs ->
  ∃ w tr,
    seed tx_size cfg (World {["root" := records cfg (itemCount cfg)]} fs)
    = (Val None, w, tr)
    ∧ w_store w = {["root" := records cfg (itemCount cfg)]}
    ∧ Z.of_nat (commits tr) * batchSize cfg = itemCount cfg.
Proof.
  intros Hwf [q Hdiv] Hq. pose proof Hwf as (Hbs & Hic & Hmax & _).
  destruct (seed_spec tx_size cfg Hwf {["root" := records cfg (itemCount cfg)]} fs)
    as (m & fs' & [(Hrange & Hrun)|(_ & Hnq & _)]); [|done].
  assert (Z.of_nat m = q) as Hm by nia.
  destruct (Z.eqb_spec (Z.of_nat m * batchSize cfg) (itemCount cfg)) as [He|Hne]; [|lia].
  do 2 eexists. split; [exact Hrun|]. split.
  - cbn [w_store]. apply (batches_store_again cfg Hwf); lia.
  - change (Print "seeding" :: ?l) with ([Print "seeding"] ++ l).
    rewrite !commits_app, batches_trace_commits.
    change (commits [Print "seeding"]) with 0%nat.
    change (commits [Print "(done)"; Print ""]) with 0%nat. lia.
Qed.

Lemma seed_again_changes_nothing_witness :
  wf_config scenario_config
  ∧ (batchSize scenario_config | itemCount scenario_config)
  ∧ quiet []
  ∧ ∃ w tr,
      seed example_size scenario_config (World scenario_store []) = (Val None, w, tr)
      ∧ w_store w = scenario_store.
Proof.
  assert (batchSize scenario_config | itemCount scenario_config) as Hdiv.
  { exists 10. reflexivity. }
  assert (quiet []) as Hq by constructor.
  split; [exact scenario_config_wf|]. split; [exact Hdiv|]. split; [exact Hq|].
  destruct (seed_again_changes_nothing example_size scenario_config []
              scenario_config_wf Hdiv Hq) as (w & tr & Hrun & Hstore & _).
  exists w, tr. split; [exact Hrun|exact Hstore].
Defined.

(** X7 (the progress lines).  Whatever the store and the faults, [seed]
    logs one progress line after each batch it has committed and no other,
    and the k-th line reports k times [batchSize] rows: the count of all
    puts so far, also of those of batches that only overwrote. *)
Theorem seed_progress_lines tx_size cfg s fs :
  wf_config cfg ->
  let tr := (seed tx_size cfg (World s fs)).2 in
  logged_rows tr
  = (fun i => (i + 1) * batchSize cfg) <$> seqZ 0 (Z.of_nat (commits tr)).
Proof.
  intros Hwf.
  destruct (seed_spec tx_size cfg Hwf s fs)
    as (m & fs' & [(_ & Hrun)|(_ & _ & e & j & _ & _ & Hrun)]);
    rewrite Hrun; cbn [snd];
    change (Print "seeding" :: ?l) with ([Print "seeding"] ++ l);
    change (TxBegin true :: ?l) with ([TxBegin true] ++ l);
    rewrite !logged_rows_app, !commits_app, ?logged_rows_put_events,
      ?commits_put_events, batches_trace_rows, batches_trace_commits;
    cbn [logged_rows omap list_omap commits filter list_filter length app Nat.add];
    rewrite ?app_nil_r, ?Nat.add_0_r; apply list_fmap_ext; intros _ i _; lia.
Qed.

Lemma seed_progress_lines_witness :
  wf_config scenario_config
  ∧ logged_rows scenario_failed.2 = [10].
Proof.
  split; [exact scenario_config_wf|].
  pose proof (seed_progress_lines example_size scenario_config ∅ commit_faults
                scenario_config_wf) as H.
  cbn zeta in H. fold scenario_failed in H. rewrite H.
  vm_compute. reflexivity.
Defined.

(** ** More about main *)


Lemma main_opened_new_spec tx_size cfg w r s1 fs1 t1 :
  seed tx_size cfg w = (Val r, World s1 fs1, t1) ->
  main_opened tx_size cfg true w
  = match r with
    | Some e => (Val (Some 1), World s1 fs1, t1 ++ [LogFatal e])
    | None =>
        (Val None, World s1 fs1,
         t1 ++ [TxBegin false; PrintSize (tx_size s1); Print ""; TxClose])
    end.
Proof.
  intros H. unfold main_opened, fatal_on. rewrite run_bind, H.
  destruct r as [e|]; run; [reflexivity|]. rewrite stat_spec. run. reflexivity.
Qed.



(** X9 (a failed seeding is not repaired).  When the seeding of a new file
    fails in a batch transaction, [main] exits and leaves the file with the
    records of the batches committed before, fewer than [itemCount], none
    if the first batch failed.  A later run finds the file, so it does not
    seed: it goes through [stat] to the phases on the partial dataset and
    leaves the file as it found it. *)
Theorem failed_seed_not_repaired tx_size cfg path files faults st files1 faults1 tr e :
  wf_config cfg ->
  path ≠ "" -> files !! path = None -> next_fault faults = None ->
  main_init tx_size cfg path files faults = (st, files1, faults1, tr) ->
  TxAbort e ∈ tr ->
  st = Val (Some 1)
  ∧ last tr = Some (LogFatal e)
  ∧ ∃ m : nat,
      Z.of_nat m * batchSize cfg < itemCount cfg
      ∧ files1 !! path = Some (seeded cfg (Z.of_nat m * batchSize cfg))
      ∧ length (contents (seeded cfg (Z.of_nat m * batchSize cfg)) "root")
        = Z.to_nat (Z.of_nat m * batchSize cfg)
      ∧ ∀ faults2,
          next_fault faults2 = None ->
          main_init tx_size cfg path files1 faults2
          = (Val None, files1, tail faults2,
             [TxBegin false;
              PrintSize (tx_size (seeded cfg (Z.of_nat m * batchSize cfg)));
              Print ""; TxClose]).
Proof.
  intros Hwf Hp Hfile Hopen Hrun Hin. pose proof Hwf as (Hbs & _).
  unfold main_init in Hrun.
  rewrite bool_decide_eq_false_2, Open_ok, Hfile in Hrun by done.
  rewrite bool_decide_eq_true_2 in Hrun by done. cbn [default from_option id] in Hrun.
  destruct (seed_events tx_size cfg Hwf (tail faults))
    as (m & fs' & [(_ & t & Hseed & Hev)
                  |(Hlt & _ & e' & j & t & _ & _ & Hseed & Hlast & Hev)]);
    rewrite (main_opened_new_spec _ _ _ _ _ _ _ Hseed) in Hrun.
  - exfalso.
    assert (TxAbort e ∈ tx_events tr) as Hin' by (by apply tx_events_elem).
    destruct (Z.of_nat m * batchSize cfg =? itemCount cfg);
      injection Hrun as <- <- <- <-;
      rewrite tx_events_app, Hev in Hin';
      apply elem_of_app in Hin' as [Hin'|Hin'];
      try (by apply batches_no_abort in Hin').
    + unfold tx_events in Hin'. apply list_elem_of_filter in Hin' as [_ Hin'].
      repeat (apply elem_of_cons in Hin' as [Hin'|Hin']; [discriminate|]).
      by apply elem_of_nil in Hin'.
    + unfold tx_events in Hin'. apply list_elem_of_filter in Hin' as [_ Hin'].
      repeat (apply elem_of_cons in Hin' as [Hin'|Hin']; [discriminate|]).
      by apply elem_of_nil in Hin'.
  - injection Hrun as <- <- <- <-.
    assert (e = e') as <-.
    { assert (TxAbort e ∈ tx_events (t ++ [LogFatal e'])) as Hin'
        by (by apply tx_events_elem).
      rewrite tx_events_app, Hev in Hin'.
      apply elem_of_app in Hin' as [Hin'|Hin'].
      - apply elem_of_app in Hin' as [Hin'|Hin']; [by apply batches_no_abort in Hin'|].
        apply elem_of_cons in Hin' as [Hin'|Hin']; [discriminate|].
        apply elem_of_app in Hin' as [Hin'|Hin']; [by apply put_events_no_abort in Hin'|].
        apply list_elem_of_singleton in Hin'. by injection Hin'.
      - unfold tx_events in Hin'. apply list_elem_of_filter in Hin' as [_ Hin'].
        apply list_elem_of_singleton in Hin'. discriminate. }
    split; [done|]. split; [apply last_snoc|].
    exists m. split; [done|]. cbn [w_store]. split; [apply lookup_insert_eq|].
    split.
    { unfold contents, seeded. destruct (Z.eqb_spec (Z.of_nat m * batchSize cfg) 0) as [->|Hne].
      - rewrite lookup_empty. reflexivity.
      - rewrite lookup_singleton_eq. apply records_length. }
    intros faults2 Hopen2. unfold main_init.
    rewrite bool_decide_eq_false_2, Open_ok, lookup_insert_eq by done.
    rewrite bool_decide_eq_false_2 by done. cbn [default from_option id].
    rewrite main_opened_old. cbn [w_store w_faults].
    rewrite insert_insert_eq. reflexivity.
Qed.

Lemma failed_seed_not_repaired_witness :
  wf_config scenario_config
  ∧ TxAbort (EngineError 7) ∈ scenario_failed_boot.2
  ∧ scenario_failed_boot.1.1.1 = Val (Some 1)
  ∧ ∃ m : nat,
      scenario_failed_boot.1.1.2 !! "bench.db"
      = Some (seeded scenario_config (Z.of_nat m * 10))
      ∧ Z.of_nat m * 10 < 100.
Proof.
  split; [exact scenario_config_wf|].
  assert (TxAbort (EngineError 7) ∈ scenario_failed_boot.2) as Hin.
  { apply list_elem_of_In. vm_compute. repeat (first [left; reflexivity | right]). }
  split; [exact Hin|].
  assert (main_init example_size scenario_config "bench.db" ∅ boot_faults
          = (scenario_failed_boot.1.1.1, scenario_failed_boot.1.1.2,
             scenario_failed_boot.1.2, scenario_failed_boot.2)) as Hrun.
  { vm_compute. reflexivity. }
  destruct (failed_seed_not_repaired example_size scenario_config "bench.db" ∅ boot_faults
              _ _ _ _ (EngineError 7) scenario_config_wf ltac:(discriminate)
              eq_refl eq_refl Hrun Hin)
    as (Hst & _ & m & Hlt & Hfile & _).
  split; [exact Hst|]. exists m. split; [exact Hfile|exact Hlt].
Defined.

(** ** Counting through the phases *)

Lemma count_cons {A} (f : A -> bool) x l :
  length (filter f (x :: l)) = (b2n (f x) + length (filter f l))%nat.
Proof. rewrite filter_cons. destruct (f x); reflexivity. Qed.

Lemma tokens_app t1 t2 : tokens (t1 ++ t2) = (tokens t1 + tokens t2)%nat.
Proof. unfold tokens. rewrite filter_app, length_app. reflexivity. Qed.

Lemma copied_app t1 t2 : copied (t1 ++ t2) = copied t1 || copied t2.
Proof. apply existsb_app. Qed.

Lemma drop_step {A} k (l : list A) x rest :
  drop k l = x :: rest -> drop (S k) l = rest.
Proof.
  intros H. replace (S k) with (k + 1)%nat by lia.
  rewrite <- drop_drop, H. reflexivity.
Qed.

(** The copy comes once, before the last send. *)
Lemma at_copy k rest :
  drop k main_phases = ICopy :: rest -> rest = [ISend; ISleep 100000000].
Proof.
  do 15 (destruct k as [|k]; [cbn; try discriminate; by intros [= <-]|]).
  cbn. discriminate.
Qed.

Lemma run_inv_intro p :
  (∃ k, p_main p = drop k main_phases) ->
  (length (p_workers p) + gos (p_main p) = 3)%nat ->
  (tokens (p_out p) + sends (p_main p) = 3)%nat ->
  length (p_workers p) = (live_count (p_workers p) + tokens (p_out p))%nat ->
  (p_parked p = true -> ∃ rest, p_main p = ISend :: rest) ->
  (has_copy (p_main p) = true -> copied (p_out p) = false) ->
  (has_copy (p_main p) = false -> copied (p_out p) = true ∨ p_status p = Exited 1) ->
  (∀ code, p_status p = Exited code ->
     (code = 0 ∧ p_main p = [])
     ∨ (code = 1 ∧ copied (p_out p) = false
        ∧ ∃ c, last (p_out p) = Some (LogFatal (EngineError c)))) ->
  run_inv p.
Proof. unfold run_inv. tauto. Qed.

Section CountProofs.

Variable cfg : config.

Lemma worker_pass_quiet o wk w :
  tokens (worker_pass cfg o wk w).2 = 0%nat
  ∧ copied (worker_pass cfg o wk w).2 = false.
Proof.
  unfold worker_pass. destruct (PutUint64 _ _) as [max|]; [|done].
  destruct w as [s fs]. destruct (s !! "root") as [recs|] eqn:H.
  - rewrite (iteration_run _ _ _ _ _ _ _ H). done.
  - rewrite (iteration_run_nil _ _ _ _ _ _ H). done.
Qed.

Lemma report_quiet d n w :
  tokens (report d n w).2 = 0%nat ∧ copied (report d n w).2 = false.
Proof. unfold report. destruct (int64_div d n); done. Qed.

Ltac isimpl := cbn [p_main p_parked p_workers p_world p_out p_status tail].

(* arithmetic on the counters *)
Ltac count :=
  unfold tokens, gos, sends in *;
  rewrite ?filter_app, ?length_app, ?length_insert, ?live_count_app, ?count_cons in *;
  cbn [is_token is_go is_send b2n length filter list_filter in_loop wk_pc] in *;
  unfold live_count in *;
  rewrite ?count_cons in *;
  cbn [is_token is_go is_send b2n length filter list_filter in_loop wk_pc] in *;
  lia.

(* the copy line, when the step wrote [t] with no copy line in it *)
Ltac keep_copy Hc1 Hc2 Hrun :=
  first
    [ by (intros Hh; rewrite copied_app, (Hc1 Hh); first [assumption | reflexivity])
    | by (intros Hh; left; destruct (Hc2 Hh) as [Hcp|Hst];
          [rewrite copied_app, Hcp; reflexivity|congruence]) ].

Lemma run_inv_main elapsed p :
  p_status p = Running -> run_inv p -> run_inv (main_step elapsed p).
Proof.
  intros Hrun ([k Hk] & Hgo & Hsend & Hlive & Hpark & Hc1 & Hc2 & Hexit).
  unfold main_step.
  destruct (p_main p) as [|x rest] eqn:Hmain.
  { apply run_inv_intro; isimpl;
      [by exists k|done|done|done|done|done| |].
    - intros Hh. left. destruct (Hc2 Hh) as [Hcp|Hst]; [done|congruence].
    - intros code [= <-]. by left. }
  pose proof (eq_sym (drop_step _ _ _ _ (eq_sym Hk))) as Hk'.
  destruct x as [line| | |ns|]; cbn [has_copy existsb is_copy orb] in Hc1, Hc2.
  - apply run_inv_intro; isimpl;
      [by exists (S k)|count|count|count|discriminate| | |discriminate].
    + intros Hh. rewrite copied_app, (Hc1 Hh). reflexivity.
    + intros Hh. left. destruct (Hc2 Hh) as [Hcp|Hst]; [|congruence].
      rewrite copied_app, Hcp. reflexivity.
  - apply run_inv_intro; isimpl;
      [by exists (S k)|count| count| |discriminate|done| |discriminate].
    + rewrite length_app, live_count_app. change (live_count [Worker WLoop 0 0]) with 1%nat.
      cbn [length]. lia.
    + intros Hh. left. destruct (Hc2 Hh) as [Hcp|Hst]; [done|congruence].
  - apply run_inv_intro; isimpl;
      [by exists k|done|done|done|eauto|done| |discriminate].
    intros Hh. left. destruct (Hc2 Hh) as [Hcp|Hst]; [done|congruence].
  - apply run_inv_intro; isimpl;
      [by exists (S k)|count|count|done|discriminate|done| |discriminate].
    intros Hh. left. destruct (Hc2 Hh) as [Hcp|Hst]; [done|congruence].
  - pose proof (at_copy _ _ (eq_sym Hk)) as ->.
    destruct (p_world p) as [s fs]. rewrite main_dbcopy_spec.
    assert (copied (p_out p) = false) as Hno by (by apply Hc1).
    destruct (next_fault fs) as [c|].
    + apply run_inv_intro; isimpl;
        [by exists (S k)|count|count|count|discriminate|discriminate| | ].
      * intros _. by right.
      * intros code [= <-]. right. split; [done|].
        split; [rewrite copied_app, Hno; reflexivity|].
        exists c.
        change [TxBegin false; TxClose; LogFatal (EngineError c)]
          with ([TxBegin false; TxClose] ++ [LogFatal (EngineError c)]).
        rewrite app_assoc. apply last_snoc.
    + apply run_inv_intro; isimpl;
        [by exists (S k)|count|count|count|discriminate|discriminate| |discriminate].
      intros _. left. rewrite copied_app. cbn. apply orb_true_r.
Qed.

Lemma run_inv_worker i sl sa p :
  p_status p = Running -> run_inv p -> run_inv (worker_step cfg i sl sa p).
Proof.
  intros Hrun Hinv. pose proof Hinv as ([k Hk] & Hgo & Hsend & Hlive & Hpark & Hc1 & Hc2 & Hexit).
  unfold worker_step.
  destruct (p_workers p !! i) as [wk|] eqn:Hi; [|done].
  destruct (wk_pc wk) eqn:Hpc.
  - pose proof (worker_pass_quiet (Tick sl sa false) wk (p_world p)) as [Ht Hcp].
    destruct (worker_pass cfg _ wk (p_world p)) as [[[[d n]|msg|] w] t];
      cbn [snd] in Ht, Hcp; [| |done].
    + pose proof (live_count_insert _ _ _ (Worker WSelect d n) Hi) as Hins.
      unfold in_loop in Hins at 1 2. rewrite Hpc in Hins. cbn [wk_pc b2n] in Hins.
      apply run_inv_intro; isimpl;
        [by exists k|by rewrite length_insert| | |done| | |discriminate].
      * rewrite tokens_app, Ht. lia.
      * rewrite length_insert, tokens_app, Ht. lia.
      * intros Hh. rewrite copied_app, (Hc1 Hh), Hcp. reflexivity.
      * intros Hh. left. destruct (Hc2 Hh) as [Hc|Hst]; [|congruence].
        rewrite copied_app, Hc. reflexivity.
    + apply run_inv_intro; isimpl;
        [by exists k|done| | |done| | |discriminate].
      * rewrite tokens_app, Ht. lia.
      * rewrite tokens_app, Ht. lia.
      * intros Hh. rewrite copied_app, (Hc1 Hh), Hcp. reflexivity.
      * intros Hh. left. destruct (Hc2 Hh) as [Hc|Hst]; [|congruence].
        rewrite copied_app, Hc. reflexivity.
  - destruct (p_parked p) eqn:Hp.
    + destruct (Hpark eq_refl) as [rest Hmain]. rewrite Hmain in *.
      pose proof (eq_sym (drop_step _ _ _ _ (eq_sym Hk))) as Hk'.
      cbn [has_copy existsb is_copy orb] in Hc1, Hc2.
      pose proof (live_count_insert _ _ _ (Worker WExit (wk_d wk) (wk_n wk)) Hi) as Hins.
      unfold in_loop in Hins at 1 2. rewrite Hpc in Hins. cbn [wk_pc b2n] in Hins.
      apply run_inv_intro; isimpl;
        [by exists (S k)| | | |discriminate| | |discriminate].
      * rewrite length_insert. revert Hgo. unfold gos. rewrite count_cons.
        cbn [is_go b2n]. lia.
      * rewrite tokens_app. change (tokens [ChanPoll true]) with 1%nat.
        revert Hsend. unfold sends. rewrite count_cons. cbn [is_send b2n]. lia.
      * rewrite length_insert, tokens_app. change (tokens [ChanPoll true]) with 1%nat. lia.
      * intros Hh. rewrite copied_app, (Hc1 Hh). reflexivity.
      * intros Hh. left. destruct (Hc2 Hh) as [Hc|Hst]; [|congruence].
        rewrite copied_app, Hc. reflexivity.
    + pose proof (live_count_insert _ _ _ (Worker WLoop (wk_d wk) (wk_n wk)) Hi) as Hins.
      unfold in_loop in Hins at 1 2. rewrite Hpc in Hins. cbn [wk_pc b2n] in Hins.
      apply run_inv_intro; isimpl;
        [by exists k|by rewrite length_insert| | |discriminate| | |discriminate].
      * rewrite tokens_app. change (tokens [ChanPoll false]) with 0%nat. lia.
      * rewrite length_insert, tokens_app. change (tokens [ChanPoll false]) with 0%nat. lia.
      * intros Hh. rewrite copied_app, (Hc1 Hh). reflexivity.
      * intros Hh. left. destruct (Hc2 Hh) as [Hc|Hst]; [|congruence].
        rewrite copied_app, Hc. reflexivity.
  - pose proof (report_quiet (wk_d wk) (wk_n wk) (p_world p)) as [Ht Hcp].
    destruct (report (wk_d wk) (wk_n wk) (p_world p)) as [[[u|msg|] w] t];
      cbn [snd] in Ht, Hcp; [| |done].
    + pose proof (live_count_insert _ _ _ (Worker WDone (wk_d wk) (wk_n wk)) Hi) as Hins.
      unfold in_loop in Hins at 1 2. rewrite Hpc in Hins. cbn [wk_pc b2n] in Hins.
      apply run_inv_intro; isimpl;
        [by exists k|by rewrite length_insert| | |done| | |discriminate].
      * rewrite tokens_app, Ht. lia.
      * rewrite length_insert, tokens_app, Ht. lia.
      * intros Hh. rewrite copied_app, (Hc1 Hh), Hcp. reflexivity.
      * intros Hh. left. destruct (Hc2 Hh) as [Hc|Hst]; [|congruence].
        rewrite copied_app, Hc. reflexivity.
    + apply run_inv_intro; isimpl;
        [by exists k|done| | |done| | |discriminate].
      * rewrite tokens_app, Ht. lia.
      * rewrite tokens_app, Ht. lia.
      * intros Hh. rewrite copied_app, (Hc1 Hh), Hcp. reflexivity.
      * intros Hh. left. destruct (Hc2 Hh) as [Hc|Hst]; [|congruence].
        rewrite copied_app, Hc. reflexivity.
  - done.
Qed.

Lemma run_inv_step p a : run_inv p -> run_inv (sched_step cfg p a).
Proof.
  intros H. unfold sched_step. destruct (p_status p) eqn:Hst; [|done|done].
  destruct a; [by apply run_inv_main|by apply run_inv_worker].
Qed.

Lemma run_inv_exec sched p : run_inv p -> run_inv (exec cfg sched p).
Proof.
  unfold exec. revert p. induction sched as [|a sched IH]; intros p H; [done|].
  cbn [fold_left]. apply IH, run_inv_step, H.
Qed.

End CountProofs.

Lemma run_inv_boot w : run_inv (boot w).
Proof.
  apply run_inv_intro; cbn [boot p_main p_parked p_workers p_world p_out p_status];
    [by exists 0%nat|reflexivity|reflexivity|reflexivity|discriminate|done
    |discriminate|discriminate].
Qed.

(** ** What the counting gives *)

(** X10 (workers and tokens add up).  At every point of every run of the
    phases: [main] has started at most three workers, and the workers
    started are the three [go]s less those still ahead; the tokens
    received are the three sends less those [main] has not got through;
    and every token received has taken exactly one worker out of its loop,
    so the workers started are those still in their loop and one for each
    token. *)
Theorem tokens_stop_workers cfg w sched :
  let p := exec cfg sched (boot w) in
  (length (p_workers p) + gos (p_main p) = 3)%nat
  ∧ (tokens (p_out p) + sends (p_main p) = 3)%nat
  ∧ length (p_workers p) = (live_count (p_workers p) + tokens (p_out p))%nat
  ∧ (length (p_workers p) <= 3)%nat.
Proof.
  intros p.
  destruct (run_inv_exec cfg sched (boot w) (run_inv_boot w))
    as (_ & Hgo & Hsend & Hlive & _).
  fold p in Hgo, Hsend, Hlive. repeat split; try done. lia.
Qed.

(** X11 (the copy runs beside one scanning worker).  Whenever [main] is
    about to copy, all three workers have been started, the first two
    phases have handed over their tokens, and exactly one worker is in its
    loop; no copy has been reported before. *)
Theorem copy_beside_one_worker cfg w sched rest :
  let p := exec cfg sched (boot w) in
  p_main p = ICopy :: rest ->
  length (p_workers p) = 3%nat
  ∧ live_count (p_workers p) = 1%nat
  ∧ tokens (p_out p) = 2%nat
  ∧ copied (p_out p) = false
  ∧ rest = [ISend; ISleep 100000000].
Proof.
  intros p Hmain.
  destruct (run_inv_exec cfg sched (boot w) (run_inv_boot w))
    as ([k Hk] & Hgo & Hsend & Hlive & _ & Hc1 & _).
  fold p in Hk, Hgo, Hsend, Hlive, Hc1. rewrite Hmain in *.
  pose proof (at_copy _ _ (eq_sym Hk)) as ->.
  change (gos [ICopy; ISend; ISleep 100000000]) with 0%nat in Hgo.
  change (sends [ICopy; ISend; ISleep 100000000]) with 1%nat in Hsend.
  split; [lia|]. split; [lia|]. split; [lia|]. split; [by apply Hc1|done].
Qed.

Lemma copy_beside_one_worker_witness :
  p_main (exec bench_config schedule_to_copy (boot (World store3 [])))
  = ICopy :: [ISend; ISleep 100000000]
  ∧ live_count (p_workers (exec bench_config schedule_to_copy (boot (World store3 []))))
    = 1%nat.
Proof.
  assert (p_main (exec bench_config schedule_to_copy (boot (World store3 [])))
          = ICopy :: [ISend; ISleep 100000000]) as Hmain by (vm_compute; reflexivity).
  split; [exact Hmain|].
  exact (proj1 (proj2 (copy_beside_one_worker bench_config (World store3 [])
                         schedule_to_copy _ Hmain))).
Defined.

(** X12 (a normal exit).  When the process has exited with status 0,
    [main] has run to its end: the copy was made and its duration printed,
    three workers were started, each has received its token and none is in
    its loop any more. *)
Theorem exit_after_all_tokens cfg w sched :
  let p := exec cfg sched (boot w) in
  p_status p = Exited 0 ->
  p_main p = []
  ∧ copied (p_out p) = true
  ∧ length (p_workers p) = 3%nat
  ∧ tokens (p_out p) = 3%nat
  ∧ Forall (fun wk => wk_pc wk = WExit ∨ wk_pc wk = WDone) (p_workers p).
Proof.
  intros p Hst.
  destruct (run_inv_exec cfg sched (boot w) (run_inv_boot w))
    as (_ & Hgo & Hsend & Hlive & _ & _ & Hc2 & Hexit).
  fold p in Hgo, Hsend, Hlive, Hc2, Hexit.
  destruct (Hexit 0 Hst) as [[_ Hmain]|[? _]]; [|lia].
  rewrite Hmain in *.
  change (gos []) with 0%nat in Hgo. change (sends []) with 0%nat in Hsend.
  split; [done|]. split.
  { destruct (Hc2 eq_refl) as [Hc|Hc]; [done|congruence]. }
  split; [lia|]. split; [lia|]. apply live_count_zero. lia.
Qed.

Lemma exit_after_all_tokens_witness :
  p_status (exec bench_config schedule_to_exit (boot (World store3 []))) = Exited 0
  ∧ tokens (p_out (exec bench_config schedule_to_exit (boot (World store3 [])))) = 3%nat.
Proof.
  assert (p_status (exec bench_config schedule_to_exit (boot (World store3 [])))
          = Exited 0) as Hst by (vm_compute; reflexivity).
  split; [exact Hst|].
  destruct (exit_after_all_tokens bench_config (World store3 []) schedule_to_exit Hst)
    as (_ & _ & _ & Ht & _).
  exact Ht.
Defined.


